(** * customersvc: the in-memory customer service and its HTTP response encoder

    A shallow embedding of the Go package [customersvc]:
    - the data model and the in-memory [Service] implementation
      ([inmemService], nine methods over [map[string]Customer]), from the
      service source whose [Customer] has the [Email] and [Phone] fields and
      whose [PostCustomer] checks the required fields;
    - the server endpoints of endpoints.go with their response types and the
      [errorer] method of each;
    - the response side of the HTTP transport ([encodeResponse],
      [encodeError], [codeFrom]);
    - the [Service] interface with the logging middleware of
      middlewares.go, the endpoints over any [Service] with the methods by
      which [Endpoints] implements [Service], and the request decoders of
      the transport with the routes of [MakeHTTPHandler].

    Every method of [inmemService] runs its whole body under the service
    mutex, so a method is modelled as one atomic function from the store
    before the call to the store after it, paired with what the call
    returns.  The [context.Context] argument is never consulted by the
    methods and is left out. *)

From stdpp Require Import gmap strings list fin_maps.

Open Scope string_scope.
Open Scope list_scope.

(** ** Data model *)

(** [type Address struct { ID, Location string }].  The Go field [Address.ID]
    is called [Address_ID] here, since [Customer] has an [ID] field too. *)
Record Address := mkAddress {
  Address_ID : string;
  Location : string
}.

(** [type Customer struct { ID, Name, Email, Phone string; Addresses []Address }].
    A nil slice and an empty slice are both the empty list: the code only
    ever takes [len] of a slice, ranges over it or appends to it. *)
Record Customer := mkCustomer {
  ID : string;
  Name : string;
  Email : string;
  Phone : string;
  Addresses : list Address
}.

(** The zero value [Customer{}] and [Address{}]. *)
Definition Customer_zero : Customer := mkCustomer "" "" "" "" [].
Definition Address_zero : Address := mkAddress "" "".

(** Field assignments [existing.Name = v], [p.Addresses = v] on a local copy. *)
Definition set_Name (v : string) (c : Customer) : Customer :=
  mkCustomer (ID c) v (Email c) (Phone c) (Addresses c).
Definition set_Addresses (v : list Address) (c : Customer) : Customer :=
  mkCustomer (ID c) (Name c) (Email c) (Phone c) v.

(** The error values.  The package declares five sentinel errors with
    [errors.New]; [ErrOther] stands for any other error value (its message is
    kept).  Go compares errors by identity, so [ErrOther "not found"] is not
    [ErrNotFound].  A Go [error] that may be nil is an [option error_val]. *)
Inductive error_val :=
  | ErrInconsistentIDs
  | ErrAlreadyExists
  | ErrNotFound
  | ErrMissingRequiredInputs
  | ErrBadRouting
  | ErrOther (msg : string).

(** The [Error()] method: the message given to [errors.New]. *)
Definition Error (e : error_val) : string :=
  match e with
  | ErrInconsistentIDs => "inconsistent IDs"
  | ErrAlreadyExists => "already exists"
  | ErrNotFound => "not found"
  | ErrMissingRequiredInputs =>
      "Missing required fields. Name and Email are required to create a Customer"
  | ErrBadRouting =>
      "inconsistent mapping between route and handler (programmer error)"
  | ErrOther msg => msg
  end.

(** The field [customers map[string]Customer] of [inmemService]. *)
Abbreviation Store := (gmap string Customer).

(** [NewInmemService]: the service starts with an empty map. *)
Definition NewInmemService : Store := ∅.

(** ** The service methods *)

Definition PostCustomer (p : Customer) (s : Store) : Store * option error_val :=
  if decide (Name p = "" ∨ Email p = "") then (s, Some ErrMissingRequiredInputs)
  else match s !! ID p with
       | Some _ => (s, Some ErrAlreadyExists)
       | None => (<[ID p := p]> s, None)
       end.

Definition GetCustomer (id : string) (s : Store) : Customer * option error_val :=
  match s !! id with
  | None => (Customer_zero, Some ErrNotFound)
  | Some p => (p, None)
  end.

Definition PutCustomer (id : string) (p : Customer) (s : Store)
  : Store * option error_val :=
  if decide (id ≠ ID p) then (s, Some ErrInconsistentIDs)
  else (<[id := p]> s, None).

Definition PatchCustomer (id : string) (p : Customer) (s : Store)
  : Store * option error_val :=
  if decide (ID p ≠ "" ∧ id ≠ ID p) then (s, Some ErrInconsistentIDs)
  else match s !! id with
       | None => (s, Some ErrNotFound)
       | Some existing =>
           let existing :=
             if decide (Name p ≠ "") then set_Name (Name p) existing
             else existing in
           let existing :=
             if decide (0 < length (Addresses p))
             then set_Addresses (Addresses p) existing
             else existing in
           (<[id := existing]> s, None)
       end.

Definition DeleteCustomer (id : string) (s : Store) : Store * option error_val :=
  match s !! id with
  | None => (s, Some ErrNotFound)
  | Some _ => (delete id s, None)
  end.

Definition GetAddresses (customerID : string) (s : Store)
  : list Address * option error_val :=
  match s !! customerID with
  | None => ([], Some ErrNotFound)
  | Some p => (Addresses p, None)
  end.

(** The range loop of [GetAddress]: [Some address] when the loop returns from
    inside its body, [None] when it runs to the end. *)
Fixpoint GetAddress_loop (addressID : string) (l : list Address) : option Address :=
  match l with
  | [] => None
  | address :: rest =>
      if decide (Address_ID address = addressID) then Some address
      else GetAddress_loop addressID rest
  end.

Definition GetAddress (customerID addressID : string) (s : Store)
  : Address * option error_val :=
  match s !! customerID with
  | None => (Address_zero, Some ErrNotFound)
  | Some p =>
      match GetAddress_loop addressID (Addresses p) with
      | Some address => (address, None)
      | None => (Address_zero, Some ErrNotFound)
      end
  end.

(** The range loop of [PostAddress]: [Some ErrAlreadyExists] when it returns
    from inside its body, [None] when it runs to the end. *)
Fixpoint PostAddress_loop (a : Address) (l : list Address) : option error_val :=
  match l with
  | [] => None
  | address :: rest =>
      if decide (Address_ID address = Address_ID a) then Some ErrAlreadyExists
      else PostAddress_loop a rest
  end.

Definition PostAddress (customerID : string) (a : Address) (s : Store)
  : Store * option error_val :=
  match s !! customerID with
  | None => (s, Some ErrNotFound)
  | Some p =>
      match PostAddress_loop a (Addresses p) with
      | Some e => (s, Some e)
      | None => (<[customerID := set_Addresses (Addresses p ++ [a]) p]> s, None)
      end
  end.

(** The range loop of [DeleteAddress], started on the empty [newAddresses]:
    an address with the given identifier is skipped ([continue]), any other
    one is appended. *)
Definition DeleteAddress_loop (addressID : string) (l : list Address)
  : list Address :=
  fold_left
    (fun newAddresses address =>
       if decide (Address_ID address = addressID) then newAddresses
       else newAddresses ++ [address])
    l [].

Definition DeleteAddress (customerID addressID : string) (s : Store)
  : Store * option error_val :=
  match s !! customerID with
  | None => (s, Some ErrNotFound)
  | Some p =>
      let newAddresses := DeleteAddress_loop addressID (Addresses p) in
      if decide (length newAddresses = length (Addresses p))
      then (s, Some ErrNotFound)
      else (<[customerID := set_Addresses newAddresses p]> s, None)
  end.

(** ** The endpoint layer (endpoints.go) *)

(** The nine request types, one constructor each. *)
Inductive Request :=
  | postCustomerRequest (Customer_ : Customer)
  | getCustomerRequest (ID_ : string)
  | putCustomerRequest (ID_ : string) (Customer_ : Customer)
  | patchCustomerRequest (ID_ : string) (Customer_ : Customer)
  | deleteCustomerRequest (ID_ : string)
  | getAddressesRequest (CustomerID : string)
  | getAddressRequest (CustomerID AddressID : string)
  | postAddressRequest (CustomerID : string) (Address_ : Address)
  | deleteAddressRequest (CustomerID AddressID : string).

(** The nine response types.  Each carries the business error of the call in
    its [Err] field, next to the value the call returned, if any. *)
Inductive Response :=
  | postCustomerResponse (Err : option error_val)
  | getCustomerResponse (Customer_ : Customer) (Err : option error_val)
  | putCustomerResponse (Err : option error_val)
  | patchCustomerResponse (Err : option error_val)
  | deleteCustomerResponse (Err : option error_val)
  | getAddressesResponse (Addresses_ : list Address) (Err : option error_val)
  | getAddressResponse (Address_ : Address) (Err : option error_val)
  | postAddressResponse (Err : option error_val)
  | deleteAddressResponse (Err : option error_val).

(** The [Err] field of a response. *)
Definition Err_of (r : Response) : option error_val :=
  match r with
  | postCustomerResponse e | getCustomerResponse _ e | putCustomerResponse e
  | patchCustomerResponse e | deleteCustomerResponse e
  | getAddressesResponse _ e | getAddressResponse _ e
  | postAddressResponse e | deleteAddressResponse e => e
  end.

(** The method [error() error] of each response type (the [errorer]
    interface of the transport), written as in endpoints.go: eight of them
    [return r.Err], the one of [putCustomerResponse] is [return nil]. *)
Definition error (r : Response) : option error_val :=
  match r with
  | postCustomerResponse Err => Err
  | getCustomerResponse _ Err => Err
  | putCustomerResponse _ => None
  | patchCustomerResponse Err => Err
  | deleteCustomerResponse Err => Err
  | getAddressesResponse _ Err => Err
  | getAddressResponse _ Err => Err
  | postAddressResponse Err => Err
  | deleteAddressResponse Err => Err
  end.

(** [MakePostCustomerEndpoint] ... [MakeDeleteAddressEndpoint]: each calls its
    service method and wraps what it returns in the response type.  The
    endpoint error is always nil and is left out. *)
Definition MakePostCustomerEndpoint (p : Customer) (s : Store) : Store * Response :=
  let '(s', e) := PostCustomer p s in (s', postCustomerResponse e).

Definition MakeGetCustomerEndpoint (id : string) (s : Store) : Store * Response :=
  let '(p, e) := GetCustomer id s in (s, getCustomerResponse p e).

Definition MakePutCustomerEndpoint (id : string) (p : Customer) (s : Store)
  : Store * Response :=
  let '(s', e) := PutCustomer id p s in (s', putCustomerResponse e).

Definition MakePatchCustomerEndpoint (id : string) (p : Customer) (s : Store)
  : Store * Response :=
  let '(s', e) := PatchCustomer id p s in (s', patchCustomerResponse e).

Definition MakeDeleteCustomerEndpoint (id : string) (s : Store) : Store * Response :=
  let '(s', e) := DeleteCustomer id s in (s', deleteCustomerResponse e).

Definition MakeGetAddressesEndpoint (customerID : string) (s : Store)
  : Store * Response :=
  let '(a, e) := GetAddresses customerID s in (s, getAddressesResponse a e).

Definition MakeGetAddressEndpoint (customerID addressID : string) (s : Store)
  : Store * Response :=
  let '(a, e) := GetAddress customerID addressID s in (s, getAddressResponse a e).

Definition MakePostAddressEndpoint (customerID : string) (a : Address) (s : Store)
  : Store * Response :=
  let '(s', e) := PostAddress customerID a s in (s', postAddressResponse e).

Definition MakeDeleteAddressEndpoint (customerID addressID : string) (s : Store)
  : Store * Response :=
  let '(s', e) := DeleteAddress customerID addressID s in
  (s', deleteAddressResponse e).

(** [MakeServerEndpoints] with the routing of [MakeHTTPHandler]: a decoded
    request reaches the endpoint of its own type. *)
Definition ServerEndpoints (req : Request) (s : Store) : Store * Response :=
  match req with
  | postCustomerRequest p => MakePostCustomerEndpoint p s
  | getCustomerRequest id => MakeGetCustomerEndpoint id s
  | putCustomerRequest id p => MakePutCustomerEndpoint id p s
  | patchCustomerRequest id p => MakePatchCustomerEndpoint id p s
  | deleteCustomerRequest id => MakeDeleteCustomerEndpoint id s
  | getAddressesRequest id => MakeGetAddressesEndpoint id s
  | getAddressRequest id addressID => MakeGetAddressEndpoint id addressID s
  | postAddressRequest id a => MakePostAddressEndpoint id a s
  | deleteAddressRequest id addressID => MakeDeleteAddressEndpoint id addressID s
  end.

(** ** Reachable stores *)

(** The store after one service call. *)
Definition step (req : Request) (s : Store) : Store := fst (ServerEndpoints req s).

(** The store after a sequence of calls, first call first. *)
Definition run (reqs : list Request) (s : Store) : Store :=
  fold_left (fun s req => step req s) reqs s.

(** Stores reachable from the empty store by calls that all satisfy [A]. *)
Inductive reachable_by (A : Request -> Prop) : Store -> Prop :=
  | reachable_new : reachable_by A NewInmemService
  | reachable_step req s :
      A req -> reachable_by A s -> reachable_by A (step req s).

(** Stores reachable by any sequence of the nine operations. *)
Definition reachable : Store -> Prop := reachable_by (fun _ => True).




Definition store_keys_consistent (s : Store) : Prop :=
  map_Forall (fun k c => ID c = k) s.

(** ** The response side of the HTTP transport (transport.go) *)

Definition StatusOK : nat := 200.
Definition StatusBadRequest : nat := 400.
Definition StatusNotFound : nat := 404.
Definition StatusInternalServerError : nat := 500.

Definition codeFrom (err : error_val) : nat :=
  match err with
  | ErrNotFound => StatusNotFound
  | ErrAlreadyExists | ErrInconsistentIDs => StatusBadRequest
  | _ => StatusInternalServerError
  end.

(** What [json.NewEncoder(w).Encode] is called on: the one-entry map
    [{"error": msg}] of [encodeError], or a response value. *)
Inductive Encoded :=
  | JSONErrorMap (msg : string)
  | JSONResponse (r : Response).

(** The [http.ResponseWriter]: its header map, the status line once it has
    been sent, and the values encoded to the body so far. *)
Record ResponseWriter := mkResponseWriter {
  Header : gmap string string;
  Status : option nat;
  Body : list Encoded
}.

Definition newResponseWriter : ResponseWriter := mkResponseWriter ∅ None [].

Definition Header_Set (k v : string) (w : ResponseWriter) : ResponseWriter :=
  mkResponseWriter (<[k := v]> (Header w)) (Status w) (Body w).

(** [w.WriteHeader(code)]: the first call sends the status line, a later one
    is ignored by net/http. *)
Definition WriteHeader (code : nat) (w : ResponseWriter) : ResponseWriter :=
  match Status w with
  | None => mkResponseWriter (Header w) (Some code) (Body w)
  | Some _ => w
  end.

(** Encoding to the writer: a write before any [WriteHeader] sends status
    200 first (the default of net/http). *)
Definition Encode (v : Encoded) (w : ResponseWriter) : ResponseWriter :=
  let w := WriteHeader StatusOK w in
  mkResponseWriter (Header w) (Status w) (Body w ++ [v]).

(** [encodeError], on a non-nil error (on nil it panics). *)
Definition encodeError (err : error_val) (w : ResponseWriter) : ResponseWriter :=
  let w := Header_Set "Content-Type" "application/json; charset=utf-8" w in
  let w := WriteHeader (codeFrom err) w in
  Encode (JSONErrorMap (Error err)) w.

(** [encodeResponse]: every response type implements [errorer], so the type
    assertion succeeds and the branch is decided by [error()]. *)
Definition encodeResponse (response : Response) (w : ResponseWriter)
  : ResponseWriter :=
  match error response with
  | Some e => encodeError e w
  | None =>
      let w := Header_Set "Content-Type" "application/json; charset=utf-8" w in
      Encode (JSONResponse response) w
  end.

(** One HTTP exchange on the server: the endpoint, then the encoder on a
    fresh writer. *)
Definition handle (req : Request) (s : Store) : Store * ResponseWriter :=
  let '(s', response) := ServerEndpoints req s in
  (s', encodeResponse response newResponseWriter).

(** Unfolds the endpoint and the service method of a call. *)
Ltac unfold_step :=
  unfold step, ServerEndpoints,
    MakePostCustomerEndpoint, MakeGetCustomerEndpoint, MakePutCustomerEndpoint,
    MakePatchCustomerEndpoint, MakeDeleteCustomerEndpoint,
    MakeGetAddressesEndpoint, MakeGetAddressEndpoint, MakePostAddressEndpoint,
    MakeDeleteAddressEndpoint,
    PostCustomer, PutCustomer, PatchCustomer, DeleteCustomer,
    PostAddress, DeleteAddress.

(** The customer a call addresses: the payload's identifier for Create, the
    path identifier for the other eight. *)
Definition customerID_of (req : Request) : string :=
  match req with
  | postCustomerRequest p => ID p
  | getCustomerRequest id | putCustomerRequest id _ | patchCustomerRequest id _
  | deleteCustomerRequest id | getAddressesRequest id | getAddressRequest id _
  | postAddressRequest id _ | deleteAddressRequest id _ => id
  end.

(** ** The [Service] interface and the logging middleware (middlewares.go) *)

(** [type Service interface]: the nine methods, over the state the
    implementation keeps between calls. *)
Module Service.
Record t (S : Type) := mk {
  PostCustomer : Customer -> S -> S * option error_val;
  GetCustomer : string -> S -> S * (Customer * option error_val);
  PutCustomer : string -> Customer -> S -> S * option error_val;
  PatchCustomer : string -> Customer -> S -> S * option error_val;
  DeleteCustomer : string -> S -> S * option error_val;
  GetAddresses : string -> S -> S * (list Address * option error_val);
  GetAddress : string -> string -> S -> S * (Address * option error_val);
  PostAddress : string -> Address -> S -> S * option error_val;
  DeleteAddress : string -> string -> S -> S * option error_val
}.
Arguments mk {S}.
Arguments PostCustomer {S}.
Arguments GetCustomer {S}.
Arguments PutCustomer {S}.
Arguments PatchCustomer {S}.
Arguments DeleteCustomer {S}.
Arguments GetAddresses {S}.
Arguments GetAddress {S}.
Arguments PostAddress {S}.
Arguments DeleteAddress {S}.
End Service.

(** [*inmemService] implements [Service]; its three read methods leave the
    store as it is. *)
Definition inmemService : Service.t Store :=
  Service.mk
    PostCustomer
    (fun id s => (s, GetCustomer id s))
    PutCustomer
    PatchCustomer
    DeleteCustomer
    (fun customerID s => (s, GetAddresses customerID s))
    (fun customerID addressID s => (s, GetAddress customerID addressID s))
    PostAddress
    DeleteAddress.

(** A value handed to [logger.Log].  The elapsed time [time.Since(begin)] is
    kept as a value without content. *)
Inductive LogValue :=
  | LogString (v : string)
  | LogDuration
  | LogError (err : option error_val).

(** The logger: the records written so far, each one the [keyvals] of one
    [Log] call. *)
Abbreviation Logger := (list (list LogValue)).

Definition Log (keyvals : list LogValue) (logger : Logger) : Logger :=
  logger ++ [keyvals].

(** [loggingMiddleware]: each method calls the same method of [next] and,
    in its deferred function, logs one record after [next] has returned. *)
Definition loggingMiddleware {S : Type} (next : Service.t S)
  : Service.t (S * Logger) :=
  Service.mk
    (fun p '(s, logger) =>
       let '(s', err) := Service.PostCustomer next p s in
       ((s', Log [LogString "method"; LogString "PostCustomer";
                  LogString "id"; LogString (ID p);
                  LogString "took"; LogDuration;
                  LogString "err"; LogError err] logger), err))
    (fun id '(s, logger) =>
       let '(s', (p, err)) := Service.GetCustomer next id s in
       ((s', Log [LogString "method"; LogString "GetCustomer";
                  LogString "id"; LogString id;
                  LogString "took"; LogDuration;
                  LogString "err"; LogError err] logger), (p, err)))
    (fun id p '(s, logger) =>
       let '(s', err) := Service.PutCustomer next id p s in
       ((s', Log [LogString "method"; LogString "PutCustomer";
                  LogString "id"; LogString id;
                  LogString "took"; LogDuration;
                  LogString "err"; LogError err] logger), err))
    (fun id p '(s, logger) =>
       let '(s', err) := Service.PatchCustomer next id p s in
       ((s', Log [LogString "method"; LogString "PatchCustomer";
                  LogString "id"; LogString id;
                  LogString "took"; LogDuration;
                  LogString "err"; LogError err] logger), err))
    (fun id '(s, logger) =>
       let '(s', err) := Service.DeleteCustomer next id s in
       ((s', Log [LogString "method"; LogString "DeleteCustomer";
                  LogString "id"; LogString id;
                  LogString "took"; LogDuration;
                  LogString "err"; LogError err] logger), err))
    (fun customerID '(s, logger) =>
       let '(s', (addresses, err)) := Service.GetAddresses next customerID s in
       ((s', Log [LogString "method"; LogString "GetAddresses";
                  LogString "customerID"; LogString customerID;
                  LogString "took"; LogDuration;
                  LogString "err"; LogError err] logger), (addresses, err)))
    (fun customerID addressID '(s, logger) =>
       let '(s', (a, err)) := Service.GetAddress next customerID addressID s in
       ((s', Log [LogString "method"; LogString "GetAddress";
                  LogString "customerID"; LogString customerID;
                  LogString "addressID"; LogString addressID;
                  LogString "took"; LogDuration;
                  LogString "err"; LogError err] logger), (a, err)))
    (fun customerID a '(s, logger) =>
       let '(s', err) := Service.PostAddress next customerID a s in
       ((s', Log [LogString "method"; LogString "PostAddress";
                  LogString "customerID"; LogString customerID;
                  LogString "took"; LogDuration;
                  LogString "err"; LogError err] logger), err))
    (fun customerID addressID '(s, logger) =>
       let '(s', err) := Service.DeleteAddress next customerID addressID s in
       ((s', Log [LogString "method"; LogString "DeleteAddress";
                  LogString "customerID"; LogString customerID;
                  LogString "addressID"; LogString addressID;
                  LogString "took"; LogDuration;
                  LogString "err"; LogError err] logger), err)).

(** The value logged under a key: [keyvals] alternates keys and values. *)
Fixpoint keyval (k : string) (keyvals : list LogValue) : option LogValue :=
  match keyvals with
  | LogString k' :: v :: rest =>
      if decide (k' = k) then Some v else keyval k rest
  | _ => None
  end.

(** The name of the service method a request type stands for. *)
Definition method_name (req : Request) : string :=
  match req with
  | postCustomerRequest _ => "PostCustomer"
  | getCustomerRequest _ => "GetCustomer"
  | putCustomerRequest _ _ => "PutCustomer"
  | patchCustomerRequest _ _ => "PatchCustomer"
  | deleteCustomerRequest _ => "DeleteCustomer"
  | getAddressesRequest _ => "GetAddresses"
  | getAddressRequest _ _ => "GetAddress"
  | postAddressRequest _ _ => "PostAddress"
  | deleteAddressRequest _ _ => "DeleteAddress"
  end.

(** ** Endpoints over any [Service] (endpoints.go) *)

(** What a Go call ends in: it returns, or it panics (a failed type
    assertion). *)
Inductive Outcome (A : Type) :=
  | Returns (a : A)
  | Panics.
Arguments Returns {A}.
Arguments Panics {A}.

(** [endpoint.Endpoint]: from a request to a response (nil is [None]) and
    an endpoint error, over the state behind the endpoint. *)
Definition Endpoint (S : Type) : Type :=
  Request -> S -> Outcome (S * (option Response * option error_val)).

Module Endpoints.
Record t (S : Type) := mk {
  PostCustomerEndpoint : Endpoint S;
  GetCustomerEndpoint : Endpoint S;
  PutCustomerEndpoint : Endpoint S;
  PatchCustomerEndpoint : Endpoint S;
  DeleteCustomerEndpoint : Endpoint S;
  GetAddressesEndpoint : Endpoint S;
  GetAddressEndpoint : Endpoint S;
  PostAddressEndpoint : Endpoint S;
  DeleteAddressEndpoint : Endpoint S
}.
Arguments mk {S}.
Arguments PostCustomerEndpoint {S}.
Arguments GetCustomerEndpoint {S}.
Arguments PutCustomerEndpoint {S}.
Arguments PatchCustomerEndpoint {S}.
Arguments DeleteCustomerEndpoint {S}.
Arguments GetAddressesEndpoint {S}.
Arguments GetAddressEndpoint {S}.
Arguments PostAddressEndpoint {S}.
Arguments DeleteAddressEndpoint {S}.

(** [MakePostCustomerEndpoint(s)] ... [MakeDeleteAddressEndpoint(s)]: the
    type assertion on the request, the service call, the response. *)
Definition MakePostCustomerEndpoint {S} (s : Service.t S) : Endpoint S :=
  fun request st =>
    match request with
    | postCustomerRequest p =>
        let '(st', e) := Service.PostCustomer s p st in
        Returns (st', (Some (postCustomerResponse e), None))
    | _ => Panics
    end.

Definition MakeGetCustomerEndpoint {S} (s : Service.t S) : Endpoint S :=
  fun request st =>
    match request with
    | getCustomerRequest id =>
        let '(st', (p, e)) := Service.GetCustomer s id st in
        Returns (st', (Some (getCustomerResponse p e), None))
    | _ => Panics
    end.

Definition MakePutCustomerEndpoint {S} (s : Service.t S) : Endpoint S :=
  fun request st =>
    match request with
    | putCustomerRequest id p =>
        let '(st', e) := Service.PutCustomer s id p st in
        Returns (st', (Some (putCustomerResponse e), None))
    | _ => Panics
    end.

Definition MakePatchCustomerEndpoint {S} (s : Service.t S) : Endpoint S :=
  fun request st =>
    match request with
    | patchCustomerRequest id p =>
        let '(st', e) := Service.PatchCustomer s id p st in
        Returns (st', (Some (patchCustomerResponse e), None))
    | _ => Panics
    end.

Definition MakeDeleteCustomerEndpoint {S} (s : Service.t S) : Endpoint S :=
  fun request st =>
    match request with
    | deleteCustomerRequest id =>
        let '(st', e) := Service.DeleteCustomer s id st in
        Returns (st', (Some (deleteCustomerResponse e), None))
    | _ => Panics
    end.

Definition MakeGetAddressesEndpoint {S} (s : Service.t S) : Endpoint S :=
  fun request st =>
    match request with
    | getAddressesRequest customerID =>
        let '(st', (a, e)) := Service.GetAddresses s customerID st in
        Returns (st', (Some (getAddressesResponse a e), None))
    | _ => Panics
    end.

Definition MakeGetAddressEndpoint {S} (s : Service.t S) : Endpoint S :=
  fun request st =>
    match request with
    | getAddressRequest customerID addressID =>
        let '(st', (a, e)) := Service.GetAddress s customerID addressID st in
        Returns (st', (Some (getAddressResponse a e), None))
    | _ => Panics
    end.

Definition MakePostAddressEndpoint {S} (s : Service.t S) : Endpoint S :=
  fun request st =>
    match request with
    | postAddressRequest customerID a =>
        let '(st', e) := Service.PostAddress s customerID a st in
        Returns (st', (Some (postAddressResponse e), None))
    | _ => Panics
    end.

Definition MakeDeleteAddressEndpoint {S} (s : Service.t S) : Endpoint S :=
  fun request st =>
    match request with
    | deleteAddressRequest customerID addressID =>
        let '(st', e) := Service.DeleteAddress s customerID addressID st in
        Returns (st', (Some (deleteAddressResponse e), None))
    | _ => Panics
    end.

Definition MakeServerEndpoints {S} (s : Service.t S) : t S :=
  mk (MakePostCustomerEndpoint s) (MakeGetCustomerEndpoint s)
     (MakePutCustomerEndpoint s) (MakePatchCustomerEndpoint s)
     (MakeDeleteCustomerEndpoint s) (MakeGetAddressesEndpoint s)
     (MakeGetAddressEndpoint s) (MakePostAddressEndpoint s)
     (MakeDeleteAddressEndpoint s).

(** The methods with which [Endpoints] implements [Service]: build the
    request, call the endpoint, return its error if it has one, otherwise
    assert the response type and return its fields. *)
Definition PostCustomer {S} (e : t S) (p : Customer) (st : S)
  : Outcome (S * option error_val) :=
  match PostCustomerEndpoint e (postCustomerRequest p) st with
  | Panics => Panics
  | Returns (st', (_, Some err)) => Returns (st', Some err)
  | Returns (st', (Some (postCustomerResponse Err), None)) => Returns (st', Err)
  | Returns (_, (_, None)) => Panics
  end.

Definition GetCustomer {S} (e : t S) (id : string) (st : S)
  : Outcome (S * (Customer * option error_val)) :=
  match GetCustomerEndpoint e (getCustomerRequest id) st with
  | Panics => Panics
  | Returns (st', (_, Some err)) => Returns (st', (Customer_zero, Some err))
  | Returns (st', (Some (getCustomerResponse c Err), None)) => Returns (st', (c, Err))
  | Returns (_, (_, None)) => Panics
  end.

Definition PutCustomer {S} (e : t S) (id : string) (p : Customer) (st : S)
  : Outcome (S * option error_val) :=
  match PutCustomerEndpoint e (putCustomerRequest id p) st with
  | Panics => Panics
  | Returns (st', (_, Some err)) => Returns (st', Some err)
  | Returns (st', (Some (putCustomerResponse Err), None)) => Returns (st', Err)
  | Returns (_, (_, None)) => Panics
  end.

Definition PatchCustomer {S} (e : t S) (id : string) (p : Customer) (st : S)
  : Outcome (S * option error_val) :=
  match PatchCustomerEndpoint e (patchCustomerRequest id p) st with
  | Panics => Panics
  | Returns (st', (_, Some err)) => Returns (st', Some err)
  | Returns (st', (Some (patchCustomerResponse Err), None)) => Returns (st', Err)
  | Returns (_, (_, None)) => Panics
  end.

Definition DeleteCustomer {S} (e : t S) (id : string) (st : S)
  : Outcome (S * option error_val) :=
  match DeleteCustomerEndpoint e (deleteCustomerRequest id) st with
  | Panics => Panics
  | Returns (st', (_, Some err)) => Returns (st', Some err)
  | Returns (st', (Some (deleteCustomerResponse Err), None)) => Returns (st', Err)
  | Returns (_, (_, None)) => Panics
  end.

Definition GetAddresses {S} (e : t S) (customerID : string) (st : S)
  : Outcome (S * (list Address * option error_val)) :=
  match GetAddressesEndpoint e (getAddressesRequest customerID) st with
  | Panics => Panics
  | Returns (st', (_, Some err)) => Returns (st', ([], Some err))
  | Returns (st', (Some (getAddressesResponse a Err), None)) => Returns (st', (a, Err))
  | Returns (_, (_, None)) => Panics
  end.

Definition GetAddress {S} (e : t S) (customerID addressID : string) (st : S)
  : Outcome (S * (Address * option error_val)) :=
  match GetAddressEndpoint e (getAddressRequest customerID addressID) st with
  | Panics => Panics
  | Returns (st', (_, Some err)) => Returns (st', (Address_zero, Some err))
  | Returns (st', (Some (getAddressResponse a Err), None)) => Returns (st', (a, Err))
  | Returns (_, (_, None)) => Panics
  end.

Definition PostAddress {S} (e : t S) (customerID : string) (a : Address) (st : S)
  : Outcome (S * option error_val) :=
  match PostAddressEndpoint e (postAddressRequest customerID a) st with
  | Panics => Panics
  | Returns (st', (_, Some err)) => Returns (st', Some err)
  | Returns (st', (Some (postAddressResponse Err), None)) => Returns (st', Err)
  | Returns (_, (_, None)) => Panics
  end.

Definition DeleteAddress {S} (e : t S) (customerID addressID : string) (st : S)
  : Outcome (S * option error_val) :=
  match DeleteAddressEndpoint e (deleteAddressRequest customerID addressID) st with
  | Panics => Panics
  | Returns (st', (_, Some err)) => Returns (st', Some err)
  | Returns (st', (Some (deleteAddressResponse Err), None)) => Returns (st', Err)
  | Returns (_, (_, None)) => Panics
  end.

(** The endpoint a request is routed to by [MakeHTTPHandler]. *)
Definition route {S} (e : t S) (req : Request) : Endpoint S :=
  match req with
  | postCustomerRequest _ => PostCustomerEndpoint e
  | getCustomerRequest _ => GetCustomerEndpoint e
  | putCustomerRequest _ _ => PutCustomerEndpoint e
  | patchCustomerRequest _ _ => PatchCustomerEndpoint e
  | deleteCustomerRequest _ => DeleteCustomerEndpoint e
  | getAddressesRequest _ => GetAddressesEndpoint e
  | getAddressRequest _ _ => GetAddressEndpoint e
  | postAddressRequest _ _ => PostAddressEndpoint e
  | deleteAddressRequest _ _ => DeleteAddressEndpoint e
  end.

(** A sequence of requests, each sent to its endpoint, first one first: the
    final state and the responses and endpoint errors in order.  A panic
    ends the run. *)
Fixpoint serve_all {S} (e : t S) (reqs : list Request) (st : S)
  : Outcome (S * list (option Response * option error_val)) :=
  match reqs with
  | [] => Returns (st, [])
  | req :: rest =>
      match route e req req st with
      | Panics => Panics
      | Returns (st', r) =>
          match serve_all e rest st' with
          | Panics => Panics
          | Returns (st'', rs) => Returns (st'', r :: rs)
          end
      end
  end.
End Endpoints.

(** ** The request side of the HTTP transport (transport.go) *)

(** What the request decoders read of an [*http.Request]: the path
    variables [mux.Vars(r)] and the body. *)
Record HTTPRequest (B : Type) := mkHTTPRequest {
  Vars : gmap string string;
  ReqBody : B
}.
Arguments mkHTTPRequest {B}.
Arguments Vars {B}.
Arguments ReqBody {B}.

(** The nine routes of [MakeHTTPHandler], named by method and path. *)
Inductive Route :=
  | POST_customers
  | GET_customers_id
  | PUT_customers_id
  | PATCH_customers_id
  | DELETE_customers_id
  | GET_customers_id_addresses
  | GET_customers_id_addresses_addressID
  | POST_customers_id_addresses
  | DELETE_customers_id_addresses_addressID.

(** The variables of the path pattern of a route: ["/customers/"],
    ["/customers/{id}"], ["/customers/{id}/addresses/"] and
    ["/customers/{id}/addresses/{addressID}"]. *)
Definition path_variables (route : Route) : list string :=
  match route with
  | POST_customers => []
  | GET_customers_id | PUT_customers_id | PATCH_customers_id
  | DELETE_customers_id | GET_customers_id_addresses
  | POST_customers_id_addresses => ["id"]
  | GET_customers_id_addresses_addressID
  | DELETE_customers_id_addresses_addressID => ["id"; "addressID"]
  end.

(** The endpoint [MakeHTTPHandler] registers for a route. *)
Definition endpoint_of {S} (e : Endpoints.t S) (route : Route) : Endpoint S :=
  match route with
  | POST_customers => Endpoints.PostCustomerEndpoint e
  | GET_customers_id => Endpoints.GetCustomerEndpoint e
  | PUT_customers_id => Endpoints.PutCustomerEndpoint e
  | PATCH_customers_id => Endpoints.PatchCustomerEndpoint e
  | DELETE_customers_id => Endpoints.DeleteCustomerEndpoint e
  | GET_customers_id_addresses => Endpoints.GetAddressesEndpoint e
  | GET_customers_id_addresses_addressID => Endpoints.GetAddressEndpoint e
  | POST_customers_id_addresses => Endpoints.PostAddressEndpoint e
  | DELETE_customers_id_addresses_addressID => Endpoints.DeleteAddressEndpoint e
  end.

Section decoders.

Context {B : Type}.

(** [json.NewDecoder(r.Body).Decode(&v)] into a [Customer] and into an
    [Address]: the decoded value, or the message of the error of the JSON
    decoder (an error value of encoding/json, none of this package). *)
Variable json_Customer : B -> Customer + string.
Variable json_Address : B -> Address + string.

Definition decodePostCustomerRequest (r : HTTPRequest B) : Request + error_val :=
  match json_Customer (ReqBody r) with
  | inr e => inr (ErrOther e)
  | inl customer => inl (postCustomerRequest customer)
  end.

Definition decodeGetCustomerRequest (r : HTTPRequest B) : Request + error_val :=
  match Vars r !! "id" with
  | None => inr ErrBadRouting
  | Some id => inl (getCustomerRequest id)
  end.

Definition decodePutCustomerRequest (r : HTTPRequest B) : Request + error_val :=
  match Vars r !! "id" with
  | None => inr ErrBadRouting
  | Some id =>
      match json_Customer (ReqBody r) with
      | inr err => inr (ErrOther err)
      | inl customer => inl (putCustomerRequest id customer)
      end
  end.

Definition decodePatchCustomerRequest (r : HTTPRequest B) : Request + error_val :=
  match Vars r !! "id" with
  | None => inr ErrBadRouting
  | Some id =>
      match json_Customer (ReqBody r) with
      | inr err => inr (ErrOther err)
      | inl customer => inl (patchCustomerRequest id customer)
      end
  end.

Definition decodeDeleteCustomerRequest (r : HTTPRequest B) : Request + error_val :=
  match Vars r !! "id" with
  | None => inr ErrBadRouting
  | Some id => inl (deleteCustomerRequest id)
  end.

Definition decodeGetAddressesRequest (r : HTTPRequest B) : Request + error_val :=
  match Vars r !! "id" with
  | None => inr ErrBadRouting
  | Some id => inl (getAddressesRequest id)
  end.

Definition decodeGetAddressRequest (r : HTTPRequest B) : Request + error_val :=
  match Vars r !! "id" with
  | None => inr ErrBadRouting
  | Some id =>
      match Vars r !! "addressID" with
      | None => inr ErrBadRouting
      | Some addressID => inl (getAddressRequest id addressID)
      end
  end.

Definition decodePostAddressRequest (r : HTTPRequest B) : Request + error_val :=
  match Vars r !! "id" with
  | None => inr ErrBadRouting
  | Some id =>
      match json_Address (ReqBody r) with
      | inr err => inr (ErrOther err)
      | inl address => inl (postAddressRequest id address)
      end
  end.

Definition decodeDeleteAddressRequest (r : HTTPRequest B) : Request + error_val :=
  match Vars r !! "id" with
  | None => inr ErrBadRouting
  | Some id =>
      match Vars r !! "addressID" with
      | None => inr ErrBadRouting
      | Some addressID => inl (deleteAddressRequest id addressID)
      end
  end.

(** The request decoder [MakeHTTPHandler] registers for a route. *)
Definition decoder_of (route : Route) : HTTPRequest B -> Request + error_val :=
  match route with
  | POST_customers => decodePostCustomerRequest
  | GET_customers_id => decodeGetCustomerRequest
  | PUT_customers_id => decodePutCustomerRequest
  | PATCH_customers_id => decodePatchCustomerRequest
  | DELETE_customers_id => decodeDeleteCustomerRequest
  | GET_customers_id_addresses => decodeGetAddressesRequest
  | GET_customers_id_addresses_addressID => decodeGetAddressRequest
  | POST_customers_id_addresses => decodePostAddressRequest
  | DELETE_customers_id_addresses_addressID => decodeDeleteAddressRequest
  end.

(** The handler of a route, as the go-kit server runs the three functions
    registered for it: the decoder, whose error goes to the error encoder
    [encodeError] (the [ServerErrorEncoder] option); then the endpoint and
    [encodeResponse] ([handle], which sends the decoded request to the
    endpoint of its type, which is the endpoint of the route: a decoder
    only builds the request type of its route). *)
Definition ServeHTTP (route : Route) (r : HTTPRequest B) (s : Store)
  : Store * ResponseWriter :=
  match decoder_of route r with
  | inr err => (s, encodeError err newResponseWriter)
  | inl request => handle request s
  end.

End decoders.

(** * Properties *)

(** ** Sample values used by the examples below *)

Definition home : Address := mkAddress "a1" "Home".
Definition work : Address := mkAddress "a2" "Work".
Definition office : Address := mkAddress "a1" "Office".
Definition alice : Customer := mkCustomer "1" "A" "a@x.com" "" [].
Definition bob : Customer := mkCustomer "2" "B" "b@x.com" "555" [home; work].

(** ** Create *)

Lemma PostCustomer_missing p s :
  Name p = "" ∨ Email p = "" ->
  PostCustomer p s = (s, Some ErrMissingRequiredInputs).
Proof. intros H. unfold PostCustomer. by rewrite decide_True. Qed.

Lemma PostCustomer_exists p s :
  Name p ≠ "" -> Email p ≠ "" -> is_Some (s !! ID p) ->
  PostCustomer p s = (s, Some ErrAlreadyExists).
Proof.
  intros Hn He [c Hc]. unfold PostCustomer.
  rewrite decide_False by tauto. by rewrite Hc.
Qed.

Lemma PostCustomer_fresh p s :
  Name p ≠ "" -> Email p ≠ "" -> s !! ID p = None ->
  PostCustomer p s = (<[ID p := p]> s, None).
Proof.
  intros Hn He Hc. unfold PostCustomer.
  rewrite decide_False by tauto. by rewrite Hc.
Qed.

(** C4. Create fails with MissingRequiredField when the payload's name or
    email is empty, whatever the store holds; with both non-empty it fails
    with AlreadyExists when the identifier is already a key of the store;
    otherwise it stores the payload under its identifier (every other key
    keeps its record) and returns no error. *)
Theorem C4_PostCustomer_cases (p : Customer) (s : Store) :
  (Name p = "" ∨ Email p = "" ->
     PostCustomer p s = (s, Some ErrMissingRequiredInputs)) ∧
  (Name p ≠ "" -> Email p ≠ "" -> is_Some (s !! ID p) ->
     PostCustomer p s = (s, Some ErrAlreadyExists)) ∧
  (Name p ≠ "" -> Email p ≠ "" -> s !! ID p = None ->
     ∃ s', PostCustomer p s = (s', None) ∧
           s' !! ID p = Some p ∧
           ∀ k, k ≠ ID p -> s' !! k = s !! k).
Proof.
  split; [apply PostCustomer_missing|].
  split; [apply PostCustomer_exists|].
  intros Hn He Hc. exists (<[ID p := p]> s).
  split; [by apply PostCustomer_fresh|].
  split; [apply lookup_insert_eq|].
  intros k Hk. by apply lookup_insert_ne.
Qed.

Lemma C4_PostCustomer_cases_witness :
  PostCustomer (mkCustomer "1" "" "a@x.com" "" []) {["1" := alice]}
    = ({["1" := alice]}, Some ErrMissingRequiredInputs) ∧
  PostCustomer alice {["1" := alice]} = ({["1" := alice]}, Some ErrAlreadyExists) ∧
  ∃ s', PostCustomer alice ∅ = (s', None) ∧ s' !! "1" = Some alice ∧
        ∀ k, k ≠ "1" -> s' !! k = (∅ : Store) !! k.
Proof.
  split; [|split].
  - apply (C4_PostCustomer_cases (mkCustomer "1" "" "a@x.com" "" [])
             {["1" := alice]}). by left.
  - apply (C4_PostCustomer_cases alice {["1" := alice]}); [done|done|].
    by exists alice.
  - apply (C4_PostCustomer_cases alice ∅); done.
Defined.

(** ** Replace *)

(** C5. Replace fails with InconsistentIDs exactly when the path identifier
    and the payload identifier differ, and then the store is unchanged,
    whether or not the path identifier is a key of it; otherwise it puts the
    payload at the path identifier, whatever was or was not there and
    whatever the payload's other fields hold, and every other key keeps its
    record. *)
Theorem C5_PutCustomer_upsert (id : string) (p : Customer) (s : Store) :
  (snd (PutCustomer id p s) = Some ErrInconsistentIDs <-> id ≠ ID p) ∧
  (id ≠ ID p -> PutCustomer id p s = (s, Some ErrInconsistentIDs)) ∧
  (id = ID p ->
     PutCustomer id p s = (<[id := p]> s, None) ∧
     fst (PutCustomer id p s) !! id = Some p ∧
     ∀ k, k ≠ id -> fst (PutCustomer id p s) !! k = s !! k).
Proof.
  unfold PutCustomer. destruct (decide (id ≠ ID p)) as [Hne|Heq]; simpl.
  - split; [done|]. split; [done|]. intros ->. done.
  - apply dec_stable in Heq.
    split; [split; [done|intros ?; done]|].
    split; [intros ?; done|]. intros _.
    split; [done|]. split; [apply lookup_insert_eq|].
    intros k Hk. by apply lookup_insert_ne.
Qed.

Lemma C5_PutCustomer_upsert_witness :
  PutCustomer "1" bob ∅ = (∅, Some ErrInconsistentIDs) ∧
  PutCustomer "1" alice {["1" := mkCustomer "1" "Old" "" "" [home]]}
    = (<["1" := alice]> {["1" := mkCustomer "1" "Old" "" "" [home]]}, None).
Proof.
  split.
  - apply (C5_PutCustomer_upsert "1" bob ∅). done.
  - apply (C5_PutCustomer_upsert "1" alice). reflexivity.
Defined.

(** ** Create, then Get or Create again *)

(** C8. For a customer with non-empty name and email whose identifier is not
    a key of the store, Create succeeds and a Get of that identifier on the
    resulting store succeeds and returns the customer itself. *)
Theorem C8_PostCustomer_then_GetCustomer (C : Customer) (s : Store) :
  Name C ≠ "" -> Email C ≠ "" -> s !! ID C = None ->
  snd (PostCustomer C s) = None ∧
  GetCustomer (ID C) (fst (PostCustomer C s)) = (C, None).
Proof.
  intros Hn He Hc. rewrite PostCustomer_fresh by done. simpl.
  split; [done|]. unfold GetCustomer. by rewrite lookup_insert_eq.
Qed.

Lemma C8_PostCustomer_then_GetCustomer_witness :
  snd (PostCustomer bob {["1" := alice]}) = None ∧
  GetCustomer "2" (fst (PostCustomer bob {["1" := alice]})) = (bob, None).
Proof.
  apply (C8_PostCustomer_then_GetCustomer bob {["1" := alice]}); done.
Defined.

(** C9. For a customer with non-empty name and email whose identifier is not
    a key of the store, the first Create succeeds, a second Create of the
    same customer fails with AlreadyExists, and the store after both calls
    is the store after the first. *)
Theorem C9_PostCustomer_twice (C : Customer) (s : Store) :
  Name C ≠ "" -> Email C ≠ "" -> s !! ID C = None ->
  snd (PostCustomer C s) = None ∧
  PostCustomer C (fst (PostCustomer C s))
    = (fst (PostCustomer C s), Some ErrAlreadyExists).
Proof.
  intros Hn He Hc. rewrite PostCustomer_fresh by done. simpl.
  split; [done|]. apply PostCustomer_exists; [done|done|].
  rewrite lookup_insert_eq. by eexists.
Qed.

Lemma C9_PostCustomer_twice_witness :
  snd (PostCustomer bob {["1" := alice]}) = None ∧
  PostCustomer bob (fst (PostCustomer bob {["1" := alice]}))
    = (fst (PostCustomer bob {["1" := alice]}), Some ErrAlreadyExists).
Proof.
  apply (C9_PostCustomer_twice bob {["1" := alice]}); done.
Defined.

(** ** RemoveAddress *)

Lemma DeleteAddress_fold addressID l acc :
  fold_left
    (fun newAddresses address =>
       if decide (Address_ID address = addressID) then newAddresses
       else newAddresses ++ [address])
    l acc
  = acc ++ filter (fun a => Address_ID a ≠ addressID) l.
Proof.
  revert acc. induction l as [|a l IH]; intros acc; simpl.
  - by rewrite app_nil_r.
  - rewrite IH. destruct (decide (Address_ID a = addressID)) as [Heq|Hne].
    + rewrite filter_cons_False; [done|]. intros H. by apply H.
    + rewrite filter_cons_True by done. by rewrite <- app_assoc.
Qed.

(** The loop of [DeleteAddress] keeps, in order, the addresses whose
    identifier differs from the given one. *)
Lemma DeleteAddress_loop_filter addressID l :
  DeleteAddress_loop addressID l = filter (fun a => Address_ID a ≠ addressID) l.
Proof. unfold DeleteAddress_loop. by rewrite DeleteAddress_fold. Qed.

Lemma filter_all (P : Address -> Prop) `{!∀ a, Decision (P a)} (l : list Address) :
  Forall P l -> filter P l = l.
Proof.
  induction 1 as [|a l Ha _ IH]; [done|].
  rewrite filter_cons_True by done. by rewrite IH.
Qed.

Lemma DeleteAddress_absent s id addressID c :
  s !! id = Some c ->
  Forall (fun a => Address_ID a ≠ addressID) (Addresses c) ->
  DeleteAddress id addressID s = (s, Some ErrNotFound).
Proof.
  intros Hc Hall. unfold DeleteAddress. rewrite Hc. simpl.
  rewrite DeleteAddress_loop_filter, filter_all by done.
  by rewrite decide_True.
Qed.

Lemma DeleteAddress_present s id addressID c :
  s !! id = Some c ->
  Exists (fun a => Address_ID a = addressID) (Addresses c) ->
  DeleteAddress id addressID s
  = (<[id := set_Addresses
               (filter (fun a => Address_ID a ≠ addressID) (Addresses c)) c]> s,
     None).
Proof.
  intros Hc Hex. unfold DeleteAddress. rewrite Hc. simpl.
  rewrite DeleteAddress_loop_filter.
  apply Exists_exists in Hex as (a & Hin & Ha).
  assert (length (filter (fun a => Address_ID a ≠ addressID) (Addresses c))
          < length (Addresses c)) as Hlt.
  { apply (length_filter_lt _ _ a); [done|]. intros H. by apply H. }
  rewrite decide_False by lia. done.
Qed.

(** C7. For a customer that exists, RemoveAddress fails with NotFound and
    leaves the store (so the address list) as it was when no address of the
    customer has the given identifier.  Otherwise it succeeds and stores the
    customer with the same fields and a new address list, which is the old
    list without the addresses of that identifier: it is a subsequence of
    the old list (the order of what remains is kept), an address is in it
    exactly when it was in the old list under another identifier, and when
    one address has the identifier the new list is the old one with that
    single element taken out. *)
Theorem C7_DeleteAddress_cases (s : Store) (id addressID : string) (c : Customer) :
  s !! id = Some c ->
  (Forall (fun a => Address_ID a ≠ addressID) (Addresses c) ->
     DeleteAddress id addressID s = (s, Some ErrNotFound)) ∧
  (Exists (fun a => Address_ID a = addressID) (Addresses c) ->
     ∃ kept,
       DeleteAddress id addressID s
         = (<[id := mkCustomer (ID c) (Name c) (Email c) (Phone c) kept]> s, None) ∧
       kept `sublist_of` Addresses c ∧
       (∀ a, a ∈ kept <-> a ∈ Addresses c ∧ Address_ID a ≠ addressID) ∧
       (∀ l1 a l2,
          Addresses c = l1 ++ a :: l2 ->
          addressID ∉ Address_ID <$> (l1 ++ l2) ->
          kept = l1 ++ l2)).
Proof.
  intros Hc. split; [by apply DeleteAddress_absent|].
  intros Hex.
  exists (filter (fun a => Address_ID a ≠ addressID) (Addresses c)).
  split; [by apply DeleteAddress_present|].
  split; [apply sublist_filter|].
  split.
  - intros a. rewrite list_elem_of_filter. tauto.
  - intros l1 a l2 Hl Hnot.
    assert (Address_ID a = addressID) as Ha.
    { destruct (decide (Address_ID a = addressID)) as [|Hne]; [done|].
      exfalso. apply Exists_exists in Hex as (b & Hb & Hbid).
      rewrite Hl in Hb. apply Hnot. rewrite <- Hbid.
      apply list_elem_of_fmap_2.
      apply elem_of_app in Hb as [Hb|Hb]; [set_solver|].
      apply elem_of_cons in Hb as [->|Hb]; [done|set_solver]. }
    rewrite Hl, filter_app, filter_cons_False by (intros H; by apply H).
    rewrite <- filter_app. apply filter_all.
    apply Forall_forall. intros b Hb Hbid. apply Hnot.
    rewrite <- Hbid. by apply list_elem_of_fmap_2.
Qed.

Lemma C7_DeleteAddress_cases_witness :
  DeleteAddress "2" "a9" {["2" := bob]} = ({["2" := bob]}, Some ErrNotFound) ∧
  ∃ kept,
    DeleteAddress "2" "a1" {["2" := bob]}
      = (<["2" := mkCustomer "2" "B" "b@x.com" "555" kept]> {["2" := bob]}, None) ∧
    kept `sublist_of` [home; work] ∧
    (∀ a, a ∈ kept <-> a ∈ [home; work] ∧ Address_ID a ≠ "a1") ∧
    (∀ l1 a l2,
       [home; work] = l1 ++ a :: l2 ->
       "a1" ∉ Address_ID <$> (l1 ++ l2) ->
       kept = l1 ++ l2).
Proof.
  split.
  - apply (C7_DeleteAddress_cases {["2" := bob]} "2" "a9" bob); [reflexivity|].
    repeat constructor; simpl; discriminate.
  - apply (C7_DeleteAddress_cases {["2" := bob]} "2" "a1" bob); [reflexivity|].
    constructor. reflexivity.
Defined.

(** ** Calls on a customer that does not exist *)

Lemma PatchCustomer_inconsistent id p s :
  ID p ≠ "" -> id ≠ ID p ->
  PatchCustomer id p s = (s, Some ErrInconsistentIDs).
Proof. intros H1 H2. unfold PatchCustomer. by rewrite decide_True. Qed.

Lemma PatchCustomer_missing id p s :
  ID p = "" ∨ ID p = id -> s !! id = None ->
  PatchCustomer id p s = (s, Some ErrNotFound).
Proof.
  intros Hid Hs. unfold PatchCustomer.
  rewrite decide_False by (intros [? ?]; destruct Hid; congruence).
  by rewrite Hs.
Qed.

(** C6 as stated fails for Update: on a store without customer "1", an
    Update of "1" whose payload carries the identifier "2" fails with
    InconsistentIDs, not with NotFound. *)
Lemma C6_Update_mismatch_counterexample :
  (NewInmemService : Store) !! "1" = None ∧
  PatchCustomer "1" bob NewInmemService = (NewInmemService, Some ErrInconsistentIDs) ∧
  snd (PatchCustomer "1" bob NewInmemService) ≠ Some ErrNotFound.
Proof. split; [reflexivity|]. split; [reflexivity|]. discriminate. Qed.

(** C6, amended. For a customer identifier that is not a key of the store,
    Get, Delete, ListAddresses, GetAddress, AddAddress and RemoveAddress
    fail with NotFound, and so does Update when the payload's identifier is
    empty or equal to the path identifier; an Update whose payload carries
    another, non-empty identifier fails with InconsistentIDs.  In every one
    of these cases the store after the call is the store before it. *)
Theorem C6_missing_customer (s : Store) (id : string) :
  s !! id = None ->
  (GetCustomer id s = (Customer_zero, Some ErrNotFound) ∧
   step (getCustomerRequest id) s = s) ∧
  DeleteCustomer id s = (s, Some ErrNotFound) ∧
  (∀ p, ID p = "" ∨ ID p = id -> PatchCustomer id p s = (s, Some ErrNotFound)) ∧
  (∀ p, ID p ≠ "" -> ID p ≠ id ->
        PatchCustomer id p s = (s, Some ErrInconsistentIDs)) ∧
  (GetAddresses id s = ([], Some ErrNotFound) ∧
   step (getAddressesRequest id) s = s) ∧
  (∀ addressID,
     GetAddress id addressID s = (Address_zero, Some ErrNotFound) ∧
     step (getAddressRequest id addressID) s = s) ∧
  (∀ a, PostAddress id a s = (s, Some ErrNotFound)) ∧
  (∀ addressID, DeleteAddress id addressID s = (s, Some ErrNotFound)).
Proof.
  intros Hs.
  unfold step, ServerEndpoints, MakeGetCustomerEndpoint, MakeGetAddressesEndpoint,
    MakeGetAddressEndpoint.
  unfold GetCustomer, DeleteCustomer, GetAddresses, GetAddress, PostAddress,
    DeleteAddress.
  rewrite Hs. simpl.
  repeat split; intros.
  - by apply PatchCustomer_missing.
  - apply PatchCustomer_inconsistent; congruence.
Qed.

Lemma C6_missing_customer_witness :
  DeleteCustomer "3" {["2" := bob]} = ({["2" := bob]}, Some ErrNotFound) ∧
  PatchCustomer "3" (mkCustomer "" "C" "" "" []) {["2" := bob]}
    = ({["2" := bob]}, Some ErrNotFound) ∧
  PostAddress "3" home {["2" := bob]} = ({["2" := bob]}, Some ErrNotFound).
Proof.
  pose proof (C6_missing_customer {["2" := bob]} "3" eq_refl)
    as (_ & Hdel & Hpatch & _ & _ & _ & Hpost & _).
  split; [exact Hdel|]. split; [|apply Hpost].
  apply Hpatch. left. reflexivity.
Defined.

(** ** Update *)

(** What [PatchCustomer] does on an existing customer: the stored name is
    replaced by a non-empty payload name, the stored address list by a
    non-empty payload list, and the identifier, email and phone of the
    stored record are kept whatever the payload holds. *)
Lemma PatchCustomer_existing id p s c :
  ID p = "" ∨ ID p = id -> s !! id = Some c ->
  PatchCustomer id p s
  = (<[id := mkCustomer (ID c)
                 (if decide (Name p = "") then Name c else Name p)
                 (Email c) (Phone c)
                 (if decide (Addresses p = []) then Addresses c else Addresses p)]> s,
     None).
Proof.
  intros Hid Hs. unfold PatchCustomer.
  rewrite decide_False by (intros [? ?]; destruct Hid; congruence).
  rewrite Hs. do 2 f_equal.
  destruct (decide (Name p = "")) as [Hn|Hn].
  - rewrite (decide_False (P := Name p ≠ "")) by tauto.
    destruct (Addresses p) as [|a l]; simpl; [by destruct c|done].
  - rewrite (decide_True (P := Name p ≠ "")) by done.
    destruct (Addresses p) as [|a l]; simpl; [done|done].
Qed.

(** C2, on the code. Customer "1" is stored with email "a@x.com" and no
    phone; an Update of "1" with a payload whose only non-empty fields are
    the email "new@x.com" and the phone "555" succeeds, and the stored
    record afterwards is the one from before: the payload's email and phone
    are not merged. *)
Theorem C2_PatchCustomer_ignores_email_phone :
  let p := mkCustomer "" "" "new@x.com" "555" [] in
  let s := fst (PostCustomer alice NewInmemService) in
  GetCustomer "1" s = (alice, None) ∧
  snd (PatchCustomer "1" p s) = None ∧
  GetCustomer "1" (fst (PatchCustomer "1" p s)) = (alice, None) ∧
  Email alice ≠ Email p ∧ Phone alice ≠ Phone p.
Proof. repeat split; (reflexivity || discriminate). Qed.

(** ** Response encoding *)

(** When the [error()] method of a response yields an error, the encoder
    sends the status mapped from it and the body [{"error": message}]. *)
Lemma encodeResponse_error r e :
  error r = Some e ->
  encodeResponse r newResponseWriter
  = mkResponseWriter {["Content-Type" := "application/json; charset=utf-8"]}
      (Some (codeFrom e)) [JSONErrorMap (Error e)].
Proof. intros H. unfold encodeResponse. rewrite H. reflexivity. Qed.

(** The status mapping of [codeFrom]. *)
Lemma codeFrom_cases :
  codeFrom ErrNotFound = 404 ∧
  codeFrom ErrAlreadyExists = 400 ∧
  codeFrom ErrInconsistentIDs = 400 ∧
  ∀ e, e ≠ ErrNotFound -> e ≠ ErrAlreadyExists -> e ≠ ErrInconsistentIDs ->
       codeFrom e = 500.
Proof.
  repeat split. intros e H1 H2 H3. by destruct e.
Qed.

(** For the eight response types whose [error()] returns the [Err] field, a
    business error of the call reaches the client as the mapped status with
    the error body. *)
Lemma encodeResponse_business_error r e :
  (∀ e', r ≠ putCustomerResponse e') ->
  Err_of r = Some e ->
  encodeResponse r newResponseWriter
  = mkResponseWriter {["Content-Type" := "application/json; charset=utf-8"]}
      (Some (codeFrom e)) [JSONErrorMap (Error e)].
Proof.
  intros Hput He. apply encodeResponse_error.
  destruct r; simpl in *; try done. by destruct (Hput Err).
Qed.

(** The sibling of Replace: an Update with mismatched identifiers is
    answered with status 400 and the error body. *)
Example handle_patch_inconsistent :
  snd (handle (patchCustomerRequest "1" bob) NewInmemService)
  = mkResponseWriter {["Content-Type" := "application/json; charset=utf-8"]}
      (Some 400) [JSONErrorMap "inconsistent IDs"].
Proof. reflexivity. Qed.

(** Replace with mismatched identifiers, in general: whatever the store,
    the answer has status 200 and the encoded response value as its body. *)
Lemma handle_put_inconsistent id p s :
  id ≠ ID p ->
  handle (putCustomerRequest id p) s
  = (s, mkResponseWriter {["Content-Type" := "application/json; charset=utf-8"]}
          (Some 200) [JSONResponse (putCustomerResponse (Some ErrInconsistentIDs))]).
Proof.
  intros Hne. unfold handle, ServerEndpoints, MakePutCustomerEndpoint, PutCustomer.
  by rewrite decide_True.
Qed.

(** C1, on the code. PUT /customers/1 with a payload whose identifier is "2":
    the service returns InconsistentIDs and the endpoint puts it in the
    response, but [putCustomerResponse.error()] returns nil, so the encoder
    takes the success branch: status 200 and the JSON encoding of the
    response value, where the mapping asks for 400 and the body
    [{"error": "inconsistent IDs"}]. *)
Theorem C1_put_error_encoded_as_success :
  ServerEndpoints (putCustomerRequest "1" bob) NewInmemService
    = (NewInmemService, putCustomerResponse (Some ErrInconsistentIDs)) ∧
  snd (handle (putCustomerRequest "1" bob) NewInmemService)
    = mkResponseWriter {["Content-Type" := "application/json; charset=utf-8"]}
        (Some 200) [JSONResponse (putCustomerResponse (Some ErrInconsistentIDs))] ∧
  codeFrom ErrInconsistentIDs = 400 ∧
  Error ErrInconsistentIDs = "inconsistent IDs".
Proof. repeat split. Qed.

(** ** Invariants of the reachable stores *)

Lemma reachable_by_run (A : Request -> Prop) reqs s :
  Forall A reqs -> reachable_by A s -> reachable_by A (run reqs s).
Proof.
  intros Hall. revert s. induction Hall as [|req reqs Hreq _ IH]; intros s Hs.
  - done.
  - simpl. apply IH. by constructor.
Qed.

Lemma step_read_only req s :
  match req with
  | getCustomerRequest _ | getAddressesRequest _ | getAddressRequest _ _ => True
  | _ => False
  end ->
  step req s = s.
Proof.
  destruct req; try done; intros _; unfold_step.
  - by destruct (GetCustomer _ _).
  - by destruct (GetAddresses _ _).
  - by destruct (GetAddress _ _ _).
Qed.

Lemma step_keys_consistent req s :
  store_keys_consistent s -> store_keys_consistent (step req s).
Proof.
  intros Hs. unfold store_keys_consistent in *.
  destruct req as [p|id|id p|id p|id|id|id aid|id a|id aid];
    try (by rewrite step_read_only); unfold_step.
  - case_decide; [done|].
    destruct (s !! ID p); simpl; [done|]. by apply map_Forall_insert_2.
  - case_decide as Hid; simpl; [done|].
    by apply map_Forall_insert_2.
  - case_decide; [done|].
    destruct (s !! id) as [c|] eqn:Hc; simpl; [|done].
    apply map_Forall_insert_2; [|done].
    repeat case_decide; simpl; apply (Hs _ _ Hc).
  - destruct (s !! id); simpl; [|done]. by apply map_Forall_delete.
  - destruct (s !! id) as [c|] eqn:Hc; simpl; [|done].
    destruct (PostAddress_loop a (Addresses c)); simpl; [done|].
    apply map_Forall_insert_2; [|done]. apply (Hs _ _ Hc).
  - destruct (s !! id) as [c|] eqn:Hc; simpl; [|done].
    case_decide; simpl; [done|].
    apply map_Forall_insert_2; [|done]. apply (Hs _ _ Hc).
Qed.

(** C10. In every store reachable from the empty store by any sequence of
    the nine operations, the identifier field of each stored customer is the
    key it is stored under. *)
Theorem C10_reachable_keys_consistent (s : Store) :
  reachable s -> store_keys_consistent s.
Proof.
  induction 1 as [|req s _ _ IH].
  - apply map_Forall_empty.
  - by apply step_keys_consistent.
Qed.

Lemma C10_reachable_keys_consistent_witness :
  store_keys_consistent
    (run [postCustomerRequest alice;
          putCustomerRequest "2" bob;
          patchCustomerRequest "1" (mkCustomer "" "Alice" "" "" [work]);
          deleteAddressRequest "2" "a1"] NewInmemService).
Proof.
  apply C10_reachable_keys_consistent.
  apply reachable_by_run; [|constructor].
  repeat constructor.
Defined.






(** * Further properties of the service *)

(** ** Failed calls and other customers *)

(** X1. A call that returns a business error leaves the store as it was:
    none of the nine operations writes before it fails. *)
Theorem failed_call_keeps_store (req : Request) (s : Store) :
  is_Some (Err_of (snd (ServerEndpoints req s))) ->
  fst (ServerEndpoints req s) = s.
Proof.
  destruct req as [p|id|id p|id p|id|id|id aid|id a|id aid];
    try (intros _; by apply (step_read_only _ s)); unfold_step.
  - case_decide; [done|]. destruct (s !! ID p); simpl; [done|].
    by intros [? ?].
  - case_decide; simpl; [done|]. by intros [? ?].
  - case_decide; [done|]. destruct (s !! id); simpl; [|done]. by intros [? ?].
  - destruct (s !! id); simpl; [|done]. by intros [? ?].
  - destruct (s !! id) as [c|]; simpl; [|done].
    destruct (PostAddress_loop a (Addresses c)); simpl; [done|]. by intros [? ?].
  - destruct (s !! id) as [c|]; simpl; [|done].
    case_decide; simpl; [done|]. by intros [? ?].
Qed.

Lemma failed_call_keeps_store_witness :
  fst (ServerEndpoints (postAddressRequest "2" office) {["2" := bob]})
  = {["2" := bob]}.
Proof.
  apply (failed_call_keeps_store (postAddressRequest "2" office) {["2" := bob]}).
  by eexists.
Defined.



(** X3. Update, AddAddress and RemoveAddress never create or remove a
    customer: the set of keys of the store is the same after the call,
    whether it succeeds or fails. *)
Theorem update_and_address_calls_keep_keys (id : string) (s : Store) :
  (∀ p, dom (fst (PatchCustomer id p s)) = dom s) ∧
  (∀ a, dom (fst (PostAddress id a s)) = dom s) ∧
  (∀ addressID, dom (fst (DeleteAddress id addressID s)) = dom s).
Proof.
  assert (∀ c c' : Customer, s !! id = Some c -> dom (<[id := c']> s) = dom s)
    as Hdom.
  { intros c c' Hc. apply dom_insert_lookup_L. by exists c. }
  unfold PatchCustomer, PostAddress, DeleteAddress.
  split; [|split].
  - intros p. case_decide; [done|].
    destruct (s !! id) as [c|] eqn:Hc; simpl; [|done]. by eapply Hdom.
  - intros a. destruct (s !! id) as [c|] eqn:Hc; simpl; [|done].
    destruct (PostAddress_loop a (Addresses c)); simpl; [done|]. by eapply Hdom.
  - intros aid. destruct (s !! id) as [c|] eqn:Hc; simpl; [|done].
    case_decide; simpl; [done|]. by eapply Hdom.
Qed.

(** ** Delete *)

(** X4. Delete of a customer that exists succeeds; afterwards the customer
    is gone with its addresses (Get and ListAddresses fail with NotFound), a
    second Delete fails with NotFound and changes nothing, and every other
    customer is still there. *)
Theorem DeleteCustomer_existing (id : string) (s : Store) :
  is_Some (s !! id) ->
  DeleteCustomer id s = (delete id s, None) ∧
  GetCustomer id (delete id s) = (Customer_zero, Some ErrNotFound) ∧
  GetAddresses id (delete id s) = ([], Some ErrNotFound) ∧
  DeleteCustomer id (delete id s) = (delete id s, Some ErrNotFound) ∧
  ∀ k, k ≠ id -> GetCustomer k (delete id s) = GetCustomer k s.
Proof.
  intros [c Hc]. unfold DeleteCustomer, GetCustomer, GetAddresses.
  rewrite Hc, lookup_delete_eq. repeat split.
  intros k Hk. by rewrite lookup_delete_ne.
Qed.

Lemma DeleteCustomer_existing_witness :
  DeleteCustomer "2" {["2" := bob]} = (delete "2" {["2" := bob]}, None).
Proof.
  apply (DeleteCustomer_existing "2" {["2" := bob]}). by exists bob.
Defined.

(** ** Replace *)

(** X5. After a Replace at the payload's own identifier a Get returns the
    payload, and repeating the same Replace changes nothing. *)
Theorem PutCustomer_then_Get_idempotent (p : Customer) (s : Store) :
  snd (PutCustomer (ID p) p s) = None ∧
  GetCustomer (ID p) (fst (PutCustomer (ID p) p s)) = (p, None) ∧
  PutCustomer (ID p) p (fst (PutCustomer (ID p) p s))
    = (fst (PutCustomer (ID p) p s), None).
Proof.
  unfold PutCustomer, GetCustomer.
  destruct (decide (ID p ≠ ID p)) as [Hne|_]; [by destruct Hne|].
  simpl. rewrite lookup_insert_eq, insert_insert_eq.
  destruct (decide (ID p ≠ ID p)) as [Hne|_]; [by destruct Hne|done].
Qed.

(** X6. For a payload with non-empty name and email whose identifier is a
    key of the store, Delete followed by Create succeeds and ends in the
    same store as one Replace. *)
Theorem Delete_then_Create_is_Replace (p : Customer) (s : Store) :
  Name p ≠ "" -> Email p ≠ "" -> is_Some (s !! ID p) ->
  snd (DeleteCustomer (ID p) s) = None ∧
  PostCustomer p (fst (DeleteCustomer (ID p) s)) = PutCustomer (ID p) p s.
Proof.
  intros Hn He [c Hc]. unfold DeleteCustomer. rewrite Hc. simpl.
  split; [done|].
  rewrite PostCustomer_fresh by (done || apply lookup_delete_eq).
  unfold PutCustomer. rewrite decide_False by (intros H; by apply H).
  by rewrite insert_delete_eq.
Qed.

Lemma Delete_then_Create_is_Replace_witness :
  snd (DeleteCustomer "2" {["2" := alice]}) = None ∧
  PostCustomer bob (fst (DeleteCustomer "2" {["2" := alice]}))
    = PutCustomer "2" bob {["2" := alice]}.
Proof.
  apply (Delete_then_Create_is_Replace bob {["2" := alice]}); [done|done|].
  by exists alice.
Defined.

(** ** Addresses *)

Lemma PostAddress_loop_fresh a l :
  Address_ID a ∉ Address_ID <$> l -> PostAddress_loop a l = None.
Proof.
  induction l as [|b l IH]; simpl; [done|].
  intros Hnot. apply not_elem_of_cons in Hnot as [Hb Hl].
  rewrite decide_False by congruence. by apply IH.
Qed.

Lemma PostAddress_loop_dup a l :
  Address_ID a ∈ Address_ID <$> l -> PostAddress_loop a l = Some ErrAlreadyExists.
Proof.
  induction l as [|b l IH]; simpl.
  - intros H. by apply elem_of_nil in H.
  - intros H. case_decide; [done|].
    apply elem_of_cons in H as [H|H]; [congruence|by apply IH].
Qed.

Lemma GetAddress_loop_absent addressID l :
  addressID ∉ Address_ID <$> l -> GetAddress_loop addressID l = None.
Proof.
  induction l as [|b l IH]; simpl; [done|].
  intros Hnot. apply not_elem_of_cons in Hnot as [Hb Hl].
  rewrite decide_False by congruence. by apply IH.
Qed.

Lemma GetAddress_loop_first addressID l1 a l2 :
  Address_ID a = addressID -> addressID ∉ Address_ID <$> l1 ->
  GetAddress_loop addressID (l1 ++ a :: l2) = Some a.
Proof.
  intros Ha. induction l1 as [|b l1 IH]; simpl.
  - intros _. by rewrite decide_True.
  - intros Hnot. apply not_elem_of_cons in Hnot as [Hb Hl].
    rewrite decide_False by congruence. by apply IH.
Qed.

Lemma set_Addresses_same c : set_Addresses (Addresses c) c = c.
Proof. by destruct c. Qed.



(** X8. AddAddress on a customer that already has an address with the same
    identifier fails with AlreadyExists and leaves the store as it was,
    whatever the location of the new address. *)
Theorem PostAddress_duplicate (id : string) (a : Address) (s : Store) (c : Customer) :
  s !! id = Some c ->
  Address_ID a ∈ Address_ID <$> Addresses c ->
  PostAddress id a s = (s, Some ErrAlreadyExists).
Proof.
  intros Hc Hin. unfold PostAddress. by rewrite Hc, PostAddress_loop_dup.
Qed.

Lemma PostAddress_duplicate_witness :
  PostAddress "2" office {["2" := bob]} = ({["2" := bob]}, Some ErrAlreadyExists).
Proof.
  apply (PostAddress_duplicate "2" office {["2" := bob]} bob); [reflexivity|].
  by apply (bool_decide_unpack _).
Defined.



Lemma PostAddress_fresh id a s c :
  s !! id = Some c ->
  Address_ID a ∉ Address_ID <$> Addresses c ->
  PostAddress id a s = (<[id := set_Addresses (Addresses c ++ [a]) c]> s, None).
Proof.
  intros Hc Hnot. unfold PostAddress. by rewrite Hc, PostAddress_loop_fresh.
Qed.

(** X10. The address list is kept in insertion order: on a customer that
    exists, adding a sequence of addresses whose identifiers are distinct
    from each other and from the ones the customer has makes ListAddresses
    return the old list followed by the added addresses, in the order of the
    calls. *)
Theorem PostAddress_insertion_order (id : string) (l : list Address) (s : Store)
    (c : Customer) :
  s !! id = Some c ->
  NoDup (Address_ID <$> (Addresses c ++ l)) ->
  GetAddresses id (fold_left (fun s a => fst (PostAddress id a s)) l s)
  = (Addresses c ++ l, None).
Proof.
  revert s c. induction l as [|a l IH]; intros s c Hc Hdup; simpl.
  - unfold GetAddresses. by rewrite Hc, app_nil_r.
  - assert (Address_ID a ∉ Address_ID <$> Addresses c) as Hnot.
    { rewrite fmap_app in Hdup. apply NoDup_app in Hdup as (_ & Hdisj & _).
      intros Hin. apply (Hdisj _ Hin). rewrite fmap_cons. by left. }
    rewrite (PostAddress_fresh id a s c) by done. simpl.
    rewrite (IH _ (set_Addresses (Addresses c ++ [a]) c)).
    + simpl. by rewrite <- app_assoc.
    + apply lookup_insert_eq.
    + simpl. by rewrite <- app_assoc.
Qed.

Lemma PostAddress_insertion_order_witness :
  GetAddresses "1"
    (fold_left (fun s a => fst (PostAddress "1" a s)) [work; home] {["1" := alice]})
  = ([] ++ [work; home], None).
Proof.
  apply (PostAddress_insertion_order "1" [work; home] {["1" := alice]} alice);
    [reflexivity|]. by apply (bool_decide_unpack _).
Defined.

(** X11. GetAddress on a customer that exists fails with NotFound when no
    address of the customer has the identifier, and otherwise returns the
    first address of the list that has it. *)
Theorem GetAddress_first_match (id addressID : string) (s : Store) (c : Customer) :
  s !! id = Some c ->
  (addressID ∉ Address_ID <$> Addresses c ->
     GetAddress id addressID s = (Address_zero, Some ErrNotFound)) ∧
  (∀ l1 a l2,
     Addresses c = l1 ++ a :: l2 ->
     Address_ID a = addressID -> addressID ∉ Address_ID <$> l1 ->
     GetAddress id addressID s = (a, None)).
Proof.
  intros Hc. unfold GetAddress. rewrite Hc. split.
  - intros Hnot. by rewrite GetAddress_loop_absent.
  - intros l1 a l2 -> Ha Hnot. by rewrite GetAddress_loop_first.
Qed.

Lemma GetAddress_first_match_witness :
  GetAddress "1" "a9" {["1" := mkCustomer "1" "A" "a@x.com" "" [work; home; office]]}
    = (Address_zero, Some ErrNotFound) ∧
  GetAddress "1" "a1" {["1" := mkCustomer "1" "A" "a@x.com" "" [work; home; office]]}
    = (home, None).
Proof.
  pose proof (GetAddress_first_match "1" "a9"
                {["1" := mkCustomer "1" "A" "a@x.com" "" [work; home; office]]}
                _ eq_refl) as [Habsent _].
  pose proof (GetAddress_first_match "1" "a1"
                {["1" := mkCustomer "1" "A" "a@x.com" "" [work; home; office]]}
                _ eq_refl) as [_ Hfirst].
  split.
  - apply Habsent. by apply (bool_decide_unpack _).
  - apply (Hfirst [work] home [office]); [reflexivity|reflexivity|].
    by apply (bool_decide_unpack _).
Defined.

(** X12. After a successful RemoveAddress no address of the customer has the
    removed identifier any more, also when several had it: GetAddress of
    that identifier fails with NotFound and a second RemoveAddress fails
    with NotFound and changes nothing. *)
Theorem DeleteAddress_then_absent (id addressID : string) (s : Store) :
  snd (DeleteAddress id addressID s) = None ->
  GetAddress id addressID (fst (DeleteAddress id addressID s))
    = (Address_zero, Some ErrNotFound) ∧
  DeleteAddress id addressID (fst (DeleteAddress id addressID s))
    = (fst (DeleteAddress id addressID s), Some ErrNotFound).
Proof.
  unfold DeleteAddress at 1 2 4 5.
  destruct (s !! id) as [c|] eqn:Hc; simpl; [|done].
  case_decide; simpl; [done|]. intros _.
  assert (addressID ∉ Address_ID <$> DeleteAddress_loop addressID (Addresses c))
    as Hnot.
  { rewrite DeleteAddress_loop_filter. intros Hin.
    apply list_elem_of_fmap in Hin as (b & Hb & Hin).
    apply list_elem_of_filter in Hin as [Hne _]. by apply Hne. }
  split.
  - unfold GetAddress. rewrite lookup_insert_eq. simpl.
    by rewrite GetAddress_loop_absent.
  - eapply DeleteAddress_absent; [apply lookup_insert_eq|].
    unfold set_Addresses. cbn [Addresses].
    apply Forall_forall. intros b Hb Hbid. subst addressID. apply Hnot.
    by apply list_elem_of_fmap_2.
Qed.

Lemma DeleteAddress_then_absent_witness :
  GetAddress "1" "a1"
    (fst (DeleteAddress "1" "a1"
            {["1" := mkCustomer "1" "A" "a@x.com" "" [home; work; office]]}))
  = (Address_zero, Some ErrNotFound).
Proof.
  apply (DeleteAddress_then_absent "1" "a1"
           {["1" := mkCustomer "1" "A" "a@x.com" "" [home; work; office]]}).
  reflexivity.
Defined.

(** ** Update *)

(** X13. Update is idempotent: repeating an Update with the same path
    identifier and payload returns the same result as the first call and
    leaves the store as the first call left it, whether the call succeeds or
    fails. *)
Theorem PatchCustomer_idempotent (id : string) (p : Customer) (s : Store) :
  PatchCustomer id p (fst (PatchCustomer id p s)) = PatchCustomer id p s.
Proof.
  destruct (decide (ID p ≠ "" ∧ id ≠ ID p)) as [[H1 H2]|Hid].
  - rewrite (PatchCustomer_inconsistent id p s) by done. simpl.
    by apply PatchCustomer_inconsistent.
  - assert (ID p = "" ∨ ID p = id) as Hid'.
    { destruct (decide (ID p = "")); [by left|right].
      destruct (decide (id = ID p)); [done|tauto]. }
    destruct (s !! id) as [c|] eqn:Hc.
    + rewrite (PatchCustomer_existing id p s c) by done. simpl.
      erewrite PatchCustomer_existing; [|done|apply lookup_insert_eq].
      simpl. rewrite insert_insert_eq. do 3 f_equal; repeat case_decide; done.
    + rewrite (PatchCustomer_missing id p s) by done. simpl.
      by apply PatchCustomer_missing.
Qed.

(** X14. A successful Update keeps the identifier, the email and the phone
    of the stored record and cannot clear a field: a stored name that was
    non-empty is non-empty afterwards, and so is a stored address list. *)
Theorem PatchCustomer_never_clears (id : string) (p : Customer) (s : Store)
    (c : Customer) :
  s !! id = Some c ->
  snd (PatchCustomer id p s) = None ->
  ∃ c', fst (PatchCustomer id p s) !! id = Some c' ∧
        ID c' = ID c ∧ Email c' = Email c ∧ Phone c' = Phone c ∧
        (Name c ≠ "" -> Name c' ≠ "") ∧
        (Addresses c ≠ [] -> Addresses c' ≠ []).
Proof.
  intros Hc. unfold PatchCustomer. case_decide; [done|]. rewrite Hc. simpl.
  intros _. eexists. split; [apply lookup_insert_eq|].
  repeat case_decide; simpl; repeat split; try done.
  all: intros _ Hnil; destruct (Addresses p); simpl in *; (done || lia).
Qed.

Lemma PatchCustomer_never_clears_witness :
  ∃ c', fst (PatchCustomer "2" (mkCustomer "" "" "" "" []) {["2" := bob]}) !! "2"
          = Some c' ∧
        ID c' = "2" ∧ Email c' = "b@x.com" ∧ Phone c' = "555" ∧
        (Name bob ≠ "" -> Name c' ≠ "") ∧
        (Addresses bob ≠ [] -> Addresses c' ≠ []).
Proof.
  apply (PatchCustomer_never_clears "2" (mkCustomer "" "" "" "" []) {["2" := bob]} bob);
    reflexivity.
Defined.

(** * The layers around the service *)

(** ** Endpoints *)

(** The endpoints of the in-memory service, routed by request type, are the
    [ServerEndpoints] used above. *)
Lemma route_inmemService req s :
  Endpoints.route (Endpoints.MakeServerEndpoints inmemService) req req s
  = Returns (fst (ServerEndpoints req s), (Some (snd (ServerEndpoints req s)), None)).
Proof.
  destruct req; simpl;
    unfold MakePostCustomerEndpoint, MakeGetCustomerEndpoint,
      MakePutCustomerEndpoint, MakePatchCustomerEndpoint,
      MakeDeleteCustomerEndpoint, MakeGetAddressesEndpoint,
      MakeGetAddressEndpoint, MakePostAddressEndpoint, MakeDeleteAddressEndpoint.
  - by destruct (PostCustomer _ _).
  - by destruct (GetCustomer _ _).
  - by destruct (PutCustomer _ _ _).
  - by destruct (PatchCustomer _ _ _).
  - by destruct (DeleteCustomer _ _).
  - by destruct (GetAddresses _ _).
  - by destruct (GetAddress _ _ _).
  - by destruct (PostAddress _ _ _).
  - by destruct (DeleteAddress _ _ _).
Qed.

(** X15. The server endpoint of any service, called with a request of its
    own type, returns: it does not panic, its endpoint error is nil, and
    the response is there, so a business error of the service never becomes
    an endpoint error.  Called with a request of another type, it panics
    in its type assertion. *)
Theorem server_endpoint_type_assertion {S : Type} (svc : Service.t S)
    (req : Request) (st : S) :
  (∃ st' response,
     Endpoints.route (Endpoints.MakeServerEndpoints svc) req req st
     = Returns (st', (Some response, None))) ∧
  (∀ req', method_name req' ≠ method_name req ->
     Endpoints.route (Endpoints.MakeServerEndpoints svc) req req' st = Panics).
Proof.
  split.
  - destruct req; simpl.
    + destruct (Service.PostCustomer svc _ st) as [st' e]. by eexists _, _.
    + destruct (Service.GetCustomer svc _ st) as [st' [c e]]. by eexists _, _.
    + destruct (Service.PutCustomer svc _ _ st) as [st' e]. by eexists _, _.
    + destruct (Service.PatchCustomer svc _ _ st) as [st' e]. by eexists _, _.
    + destruct (Service.DeleteCustomer svc _ st) as [st' e]. by eexists _, _.
    + destruct (Service.GetAddresses svc _ st) as [st' [a e]]. by eexists _, _.
    + destruct (Service.GetAddress svc _ _ st) as [st' [a e]]. by eexists _, _.
    + destruct (Service.PostAddress svc _ _ st) as [st' e]. by eexists _, _.
    + destruct (Service.DeleteAddress svc _ _ st) as [st' e]. by eexists _, _.
  - intros req' Hne. destruct req, req'; simpl in *; done.
Qed.

Lemma server_endpoint_type_assertion_witness :
  Endpoints.route (Endpoints.MakeServerEndpoints inmemService)
    (getCustomerRequest "1") (deleteCustomerRequest "1") {["1" := alice]}
  = Panics.
Proof.
  apply (server_endpoint_type_assertion inmemService (getCustomerRequest "1")
           {["1" := alice]}).
  discriminate.
Defined.

(** X16. [Endpoints] built by [MakeServerEndpoints] from a service implement
    that service: each of the nine methods of the [Endpoints] returns, with
    the state and the result (value and error) of the service's own method.
    The error of Replace is among them: the method reads the [Err] field of
    the response. *)
Theorem Endpoints_of_service_is_service {S : Type} (svc : Service.t S) (st : S) :
  let e := Endpoints.MakeServerEndpoints svc in
  (∀ p, Endpoints.PostCustomer e p st = Returns (Service.PostCustomer svc p st)) ∧
  (∀ id, Endpoints.GetCustomer e id st = Returns (Service.GetCustomer svc id st)) ∧
  (∀ id p, Endpoints.PutCustomer e id p st
           = Returns (Service.PutCustomer svc id p st)) ∧
  (∀ id p, Endpoints.PatchCustomer e id p st
           = Returns (Service.PatchCustomer svc id p st)) ∧
  (∀ id, Endpoints.DeleteCustomer e id st
         = Returns (Service.DeleteCustomer svc id st)) ∧
  (∀ id, Endpoints.GetAddresses e id st
         = Returns (Service.GetAddresses svc id st)) ∧
  (∀ id addressID, Endpoints.GetAddress e id addressID st
                   = Returns (Service.GetAddress svc id addressID st)) ∧
  (∀ id a, Endpoints.PostAddress e id a st
           = Returns (Service.PostAddress svc id a st)) ∧
  (∀ id addressID, Endpoints.DeleteAddress e id addressID st
                   = Returns (Service.DeleteAddress svc id addressID st)).
Proof.
  simpl. repeat split; intros.
  - unfold Endpoints.PostCustomer. simpl.
    by destruct (Service.PostCustomer svc _ st) as [st' e].
  - unfold Endpoints.GetCustomer. simpl.
    by destruct (Service.GetCustomer svc _ st) as [st' [c e]].
  - unfold Endpoints.PutCustomer. simpl.
    by destruct (Service.PutCustomer svc _ _ st) as [st' e].
  - unfold Endpoints.PatchCustomer. simpl.
    by destruct (Service.PatchCustomer svc _ _ st) as [st' e].
  - unfold Endpoints.DeleteCustomer. simpl.
    by destruct (Service.DeleteCustomer svc _ st) as [st' e].
  - unfold Endpoints.GetAddresses. simpl.
    by destruct (Service.GetAddresses svc _ st) as [st' [a e]].
  - unfold Endpoints.GetAddress. simpl.
    by destruct (Service.GetAddress svc _ _ st) as [st' [a e]].
  - unfold Endpoints.PostAddress. simpl.
    by destruct (Service.PostAddress svc _ _ st) as [st' e].
  - unfold Endpoints.DeleteAddress. simpl.
    by destruct (Service.DeleteAddress svc _ _ st) as [st' e].
Qed.

(** ** The logging middleware *)

Lemma loggingMiddleware_call {S : Type} (next : Service.t S) (req : Request)
    (st : S) (logger : Logger) :
  ∃ st' response record,
    Endpoints.route (Endpoints.MakeServerEndpoints next) req req st
      = Returns (st', (Some response, None)) ∧
    Endpoints.route (Endpoints.MakeServerEndpoints (loggingMiddleware next))
        req req (st, logger)
      = Returns ((st', logger ++ [record]), (Some response, None)) ∧
    keyval "method" record = Some (LogString (method_name req)) ∧
    keyval "err" record = Some (LogError (Err_of response)).
Proof.
  destruct req; simpl.
  - destruct (Service.PostCustomer next _ st) as [st' e]. by eexists _, _, _.
  - destruct (Service.GetCustomer next _ st) as [st' [c e]]. by eexists _, _, _.
  - destruct (Service.PutCustomer next _ _ st) as [st' e]. by eexists _, _, _.
  - destruct (Service.PatchCustomer next _ _ st) as [st' e]. by eexists _, _, _.
  - destruct (Service.DeleteCustomer next _ st) as [st' e]. by eexists _, _, _.
  - destruct (Service.GetAddresses next _ st) as [st' [a e]]. by eexists _, _, _.
  - destruct (Service.GetAddress next _ _ st) as [st' [a e]]. by eexists _, _, _.
  - destruct (Service.PostAddress next _ _ st) as [st' e]. by eexists _, _, _.
  - destruct (Service.DeleteAddress next _ _ st) as [st' e]. by eexists _, _, _.
Qed.

(** X17. The logging middleware is transparent and logs every call once:
    for any service and any sequence of requests, the service wrapped in the
    middleware returns the same responses and leaves the wrapped service in
    the same state as the service alone; the logger receives exactly one
    record per request, in request order, after the records it had, and the
    record of a call carries the name of its method under "method" and the
    error the call returned under "err". *)
Theorem loggingMiddleware_transparent {S : Type} (next : Service.t S)
    (reqs : list Request) (st : S) (logger : Logger) :
  ∃ st' responses records,
    Endpoints.serve_all (Endpoints.MakeServerEndpoints next) reqs st
      = Returns (st', (fun r => (Some r, None)) <$> responses) ∧
    Endpoints.serve_all (Endpoints.MakeServerEndpoints (loggingMiddleware next))
        reqs (st, logger)
      = Returns ((st', logger ++ records), (fun r => (Some r, None)) <$> responses) ∧
    keyval "method" <$> records
      = (fun req => Some (LogString (method_name req))) <$> reqs ∧
    keyval "err" <$> records
      = (fun r => Some (LogError (Err_of r))) <$> responses.
Proof.
  revert st logger. induction reqs as [|req reqs IH]; intros st logger.
  - exists st, [], []. simpl. by rewrite app_nil_r.
  - destruct (loggingMiddleware_call next req st logger)
      as (st1 & r & record & Hbare & Hlogged & Hmethod & Herr).
    destruct (IH st1 (logger ++ [record]))
      as (st' & rs & records & Hbare' & Hlogged' & Hmethods & Herrs).
    exists st', (r :: rs), (record :: records).
    cbn [Endpoints.serve_all]. rewrite Hbare, Hlogged, Hbare', Hlogged'.
    rewrite <- app_assoc, !fmap_cons, Hmethod, Herr, Hmethods, Herrs. done.
Qed.

(** ** Request decoding and the route handlers *)

Section transport_properties.

Context {B : Type}.
Variable json_Customer : B -> Customer + string.
Variable json_Address : B -> Address + string.

Local Abbreviation decoder := (decoder_of json_Customer json_Address).
Local Abbreviation serve := (ServeHTTP json_Customer json_Address).
Local Abbreviation json_header :=
  ({["Content-Type" := "application/json; charset=utf-8"]} : gmap string string).

(** Case analysis on what a decoder reads. *)
Ltac decoder_cases r :=
  unfold decoder_of, decodePostCustomerRequest, decodeGetCustomerRequest,
    decodePutCustomerRequest, decodePatchCustomerRequest,
    decodeDeleteCustomerRequest, decodeGetAddressesRequest,
    decodeGetAddressRequest, decodePostAddressRequest,
    decodeDeleteAddressRequest;
  destruct (Vars r !! "id") as [?id|] eqn:?Hid;
  destruct (Vars r !! "addressID") as [?aid|] eqn:?Haid;
  destruct (json_Customer (ReqBody r)) as [?c|?msg];
  destruct (json_Address (ReqBody r)) as [?a|?msg].

(** X18. The decoder and the endpoint registered for a route agree: a
    request the decoder of a route returns has the type the endpoint of that
    route asserts, so the endpoint is the one the request type is routed to,
    and on a route with the path variable "id" the request addresses the
    customer named by that variable, never one named in the body. *)
Theorem decoder_agrees_with_endpoint (route : Route) (r : HTTPRequest B)
    (req : Request) :
  decoder route r = inl req ->
  (∀ (S : Type) (e : Endpoints.t S), endpoint_of e route = Endpoints.route e req) ∧
  ("id" ∈ path_variables route -> Vars r !! "id" = Some (customerID_of req)).
Proof.
  destruct route; decoder_cases r; intros Hdec; inversion Hdec; subst;
    (split; [done|]); simpl; try done.
  all: intros Hin; by apply elem_of_nil in Hin.
Qed.

(** X19. A decoder fails with BadRouting exactly when the request lacks a
    variable of the route's path pattern, whatever the body holds; with all
    path variables present its only failure is a JSON error of the body. *)
Theorem decoder_BadRouting_iff (route : Route) (r : HTTPRequest B) :
  decoder route r = inr ErrBadRouting <->
  ∃ v, v ∈ path_variables route ∧ Vars r !! v = None.
Proof.
  split.
  - destruct route; decoder_cases r; intros Hdec; inversion Hdec;
      first [ by exists "id"; split; [apply (bool_decide_unpack _)|]
            | by exists "addressID"; split; [apply (bool_decide_unpack _)|] ].
  - intros (v & Hv & Hnone).
    destruct route; simpl in Hv;
      repeat (apply elem_of_cons in Hv as [->|Hv]);
      try (by apply elem_of_nil in Hv);
      decoder_cases r; congruence.
Qed.

Lemma encodeError_fresh err :
  encodeError err newResponseWriter
  = mkResponseWriter json_header (Some (codeFrom err)) [JSONErrorMap (Error err)].
Proof. reflexivity. Qed.

(** X20. A request that cannot be decoded (a missing path variable or a
    body that is not the expected JSON) is answered with status 500 and the
    body [{"error": message}], and the store is not touched. *)
Theorem ServeHTTP_decode_error (route : Route) (r : HTTPRequest B) (s : Store)
    (err : error_val) :
  decoder route r = inr err ->
  serve route r s
  = (s, mkResponseWriter json_header (Some 500) [JSONErrorMap (Error err)]).
Proof.
  intros Hdec. unfold ServeHTTP. rewrite Hdec, encodeError_fresh.
  do 3 f_equal. revert Hdec.
  destruct route; decoder_cases r; intros Hdec; by inversion Hdec.
Qed.

Lemma handle_shape req s :
  Header (snd (handle req s)) = json_header ∧
  (∃ v, Body (snd (handle req s)) = [v]) ∧
  Status (snd (handle req s)) ∈ [Some 200; Some 400; Some 404; Some 500].
Proof.
  unfold handle. destruct (ServerEndpoints req s) as [s' response]. simpl.
  unfold encodeResponse. destruct (error response) as [e|].
  - rewrite encodeError_fresh. simpl. split; [done|]. split; [by eexists|].
    destruct e; by apply (bool_decide_unpack _).
  - simpl. split; [done|]. split; [by eexists|]. by apply (bool_decide_unpack _).
Qed.

(** X21. Every answer of a route handler, to any request and on any store,
    has the header Content-Type: application/json; charset=utf-8, a body of
    exactly one JSON value, and one of the statuses 200, 400, 404 and 500. *)
Theorem ServeHTTP_response_shape (route : Route) (r : HTTPRequest B) (s : Store) :
  Header (snd (serve route r s)) = json_header ∧
  (∃ v, Body (snd (serve route r s)) = [v]) ∧
  Status (snd (serve route r s)) ∈ [Some 200; Some 400; Some 404; Some 500].
Proof.
  unfold ServeHTTP. destruct (decoder route r) as [req|err].
  - apply handle_shape.
  - rewrite encodeError_fresh. simpl. split; [done|]. split; [by eexists|].
    destruct err; by apply (bool_decide_unpack _).
Qed.

(** X22. GET /customers/{id}: when the customer exists the answer is status
    200 with the stored customer and no error in the response; when it does
    not, status 404 with the body [{"error": "not found"}].  The store is
    the same afterwards in both cases. *)
Theorem ServeHTTP_GET_customer (r : HTTPRequest B) (s : Store) (id : string) :
  Vars r !! "id" = Some id ->
  serve GET_customers_id r s
  = (s, match s !! id with
        | Some c =>
            mkResponseWriter json_header (Some 200)
              [JSONResponse (getCustomerResponse c None)]
        | None =>
            mkResponseWriter json_header (Some 404) [JSONErrorMap "not found"]
        end).
Proof.
  intros Hid. unfold ServeHTTP. simpl. unfold decodeGetCustomerRequest.
  rewrite Hid. unfold handle. simpl.
  unfold MakeGetCustomerEndpoint, GetCustomer.
  by destruct (s !! id).
Qed.

End transport_properties.

Lemma decoder_agrees_with_endpoint_witness :
  Vars (mkHTTPRequest {["id" := "1"]} tt) !! "id"
  = Some (customerID_of (putCustomerRequest "1" bob)).
Proof.
  apply (decoder_agrees_with_endpoint (fun _ : unit => inl bob)
           (fun _ : unit => inl home) PUT_customers_id
           (mkHTTPRequest {["id" := "1"]} tt) (putCustomerRequest "1" bob)).
  - reflexivity.
  - by apply (bool_decide_unpack _).
Defined.

Lemma ServeHTTP_decode_error_witness :
  ServeHTTP (fun _ : unit => inr "unexpected EOF") (fun _ : unit => inl home)
    POST_customers (mkHTTPRequest ∅ tt) {["1" := alice]}
  = ({["1" := alice]},
     mkResponseWriter {["Content-Type" := "application/json; charset=utf-8"]}
       (Some 500) [JSONErrorMap (Error (ErrOther "unexpected EOF"))]).
Proof.
  apply (ServeHTTP_decode_error (fun _ : unit => inr "unexpected EOF")
           (fun _ : unit => inl home) POST_customers (mkHTTPRequest ∅ tt)
           {["1" := alice]} (ErrOther "unexpected EOF")).
  reflexivity.
Defined.

Lemma ServeHTTP_GET_customer_witness :
  ServeHTTP (fun _ : unit => inl bob) (fun _ : unit => inl home)
    GET_customers_id (mkHTTPRequest {["id" := "missing"]} tt) {["1" := alice]}
  = ({["1" := alice]},
     mkResponseWriter {["Content-Type" := "application/json; charset=utf-8"]}
       (Some 404) [JSONErrorMap "not found"]).
Proof.
  exact (ServeHTTP_GET_customer (fun _ : unit => inl bob) (fun _ : unit => inl home)
           (mkHTTPRequest {["id" := "missing"]} tt) {["1" := alice]} "missing"
           eq_refl).
Defined.

(** ** Status of the answers *)

(** X23. For every operation but Replace, the answer has status 200 exactly
    when the service call returned no error. *)
Theorem handle_status_200_iff_success (req : Request) (s : Store) :
  (∀ id p, req ≠ putCustomerRequest id p) ->
  Status (snd (handle req s)) = Some 200 <->
  Err_of (snd (ServerEndpoints req s)) = None.
Proof.
  intros Hput. unfold handle.
  destruct (ServerEndpoints req s) as [s' response] eqn:Hserve. simpl.
  assert (error response = Err_of response) as Herror.
  { destruct req; try (by destruct (Hput ID_ Customer_));
      revert Hserve; unfold ServerEndpoints,
        MakePostCustomerEndpoint, MakeGetCustomerEndpoint,
        MakePatchCustomerEndpoint, MakeDeleteCustomerEndpoint,
        MakeGetAddressesEndpoint, MakeGetAddressEndpoint,
        MakePostAddressEndpoint, MakeDeleteAddressEndpoint.
    - destruct (PostCustomer _ _); by intros [= <- <-].
    - destruct (GetCustomer _ _); by intros [= <- <-].
    - destruct (PatchCustomer _ _ _); by intros [= <- <-].
    - destruct (DeleteCustomer _ _); by intros [= <- <-].
    - destruct (GetAddresses _ _); by intros [= <- <-].
    - destruct (GetAddress _ _ _); by intros [= <- <-].
    - destruct (PostAddress _ _ _); by intros [= <- <-].
    - destruct (DeleteAddress _ _ _); by intros [= <- <-]. }
  unfold encodeResponse. rewrite Herror.
  destruct (Err_of response) as [e|]; simpl; [|done].
  split; [|done]. by destruct e.
Qed.

Lemma handle_status_200_iff_success_witness :
  Status (snd (handle (postAddressRequest "2" (mkAddress "a3" "Gym"))
                 {["2" := bob]})) = Some 200.
Proof.
  apply (handle_status_200_iff_success
           (postAddressRequest "2" (mkAddress "a3" "Gym")) {["2" := bob]}).
  - discriminate.
  - reflexivity.
Defined.

(** X24. POST /customers/ with a customer whose name or email is empty is
    answered with status 500 (the error of the required-field check has no
    status of its own in [codeFrom]) and the message of that error, and the
    store is not touched. *)
Theorem handle_missing_required_is_500 (p : Customer) (s : Store) :
  Name p = "" ∨ Email p = "" ->
  handle (postCustomerRequest p) s
  = (s, mkResponseWriter {["Content-Type" := "application/json; charset=utf-8"]}
          (Some 500)
          [JSONErrorMap
             "Missing required fields. Name and Email are required to create a Customer"]).
Proof.
  intros H. unfold handle, ServerEndpoints, MakePostCustomerEndpoint.
  by rewrite PostCustomer_missing.
Qed.

Lemma handle_missing_required_is_500_witness :
  handle (postCustomerRequest (mkCustomer "1234" "Go Kit" "" "" [])) NewInmemService
  = (NewInmemService,
     mkResponseWriter {["Content-Type" := "application/json; charset=utf-8"]}
       (Some 500)
       [JSONErrorMap
          "Missing required fields. Name and Email are required to create a Customer"]).
Proof.
  apply (handle_missing_required_is_500 (mkCustomer "1234" "Go Kit" "" "" [])).
  by right.
Defined.
